(** * Long-document question answering: a model of [app/services/qa_service.py]

    The functions of the service are embedded as Rocq functions with the
    names they have in the source.  Conventions of the embedding:

    - a Python [str] is a list of characters ([str := list ascii]); the
      character classes used by [str.split], [str.strip], [str.upper],
      [str.isupper] and by the regular expressions ([\s], [\w], [\b]) are
      those Python uses on ASCII text (a character above 127 counts as
      neither blank, letter nor digit, and has no other case), so what is
      stated of letters, case or character classes is stated of ASCII
      characters ([Char.isascii]);
    - a Python [int] is a [Z]; slices and indices follow Python, negative
      indices included;
    - a Python [float] is an IEEE binary64 number ([PrimFloat.float]), with
      Python's [min], [max] and comparisons; an [int] compared with a
      [float] is converted first, which is exact below 2^53;
    - the pretrained pipeline is a parameter ([pipeline_t]); a call either
      raises or returns a list of (answer, score) pairs, and loading it
      may raise; what is raised is an instance of [Exception], except in
      [Module Interruptible], where a call can also raise outside
      [Exception] ([KeyboardInterrupt], [SystemExit]);
    - the [while] loop of [smart_chunking] runs on fuel; every turn of it
      appends a window to a list that is never shortened, so a run of the
      loop that does not end on its own ends in the MemoryError of an
      append, and the fuel stands for the number of turns memory allows;
    - a call of [answer_question] has an [outcome]: it returns or
      raises. *)

From Stdlib Require Import List ZArith Lia Bool Ascii String Floats.
From Stdlib Require Import Permutation.
Import ListNotations.

Set Warnings "-inexact-float,-uniform-inheritance".

Definition str := list ascii.
Coercion list_ascii_of_string : string >-> list.

Local Open Scope string_scope.
Local Open Scope list_scope.
Local Open Scope Z_scope.

(** ** Python built-ins *)

Definition len {A : Type} (l : list A) : Z := Z.of_nat (List.length l).

Definition str_eqb (a b : str) : bool :=
  if list_eq_dec ascii_dec a b then true else false.

Definition strs (l : list string) : list str := map list_ascii_of_string l.

Module Char.

Definition code (c : ascii) : N := N_of_ascii c.

Definition between (lo hi : N) (c : ascii) : bool :=
  ((lo <=? code c) && (code c <=? hi))%N.

(** [str.isspace] on one character: TAB..CR, FS..US and the space. *)
Definition isspace (c : ascii) : bool :=
  between 9 13 c || between 28 32 c.

Definition isupper (c : ascii) : bool := between 65 90 c.
Definition islower (c : ascii) : bool := between 97 122 c.
Definition isdigit (c : ascii) : bool := between 48 57 c.
Definition isalpha (c : ascii) : bool := isupper c || islower c.

(** The class [\w] of the [re] module. *)
Definition isword (c : ascii) : bool :=
  isalpha c || isdigit c || (code c =? 95)%N.

Definition upper (c : ascii) : ascii :=
  if islower c then ascii_of_N (code c - 32) else c.

Definition lower (c : ascii) : ascii :=
  if isupper c then ascii_of_N (code c + 32) else c.

Definition eqb (a b : ascii) : bool := Ascii.eqb a b.

(** [str.isascii] on one character. *)
Definition isascii (c : ascii) : bool := (code c <? 128)%N.

End Char.

Module Py.

(** [s.upper()], [s.lower()], [s.isupper()]. *)
Definition upper (s : str) : str := map Char.upper s.
Definition lower (s : str) : str := map Char.lower s.

(** [s.isascii()]. *)
Definition isascii (s : str) : bool := forallb Char.isascii s.

Definition isupper (s : str) : bool :=
  existsb Char.isupper s && negb (existsb Char.islower s).

(** [s.lstrip()], [s.rstrip()], [s.strip()]. *)
Fixpoint lstrip (s : str) : str :=
  match s with
  | c :: r => if Char.isspace c then lstrip r else s
  | [] => []
  end.

Definition rstrip (s : str) : str := rev (lstrip (rev s)).
Definition strip (s : str) : str := rstrip (lstrip s).

(** [sep.join(l)]. *)
Fixpoint join (sep : str) (l : list str) : str :=
  match l with
  | [] => []
  | [x] => x
  | x :: r => x ++ sep ++ join sep r
  end.

(** [s.split()]: the maximal runs of non-blank characters.  [split_run]
    returns the run that starts the string and the words after it. *)
Definition push_word (w : str) (ws : list str) : list str :=
  match w with [] => ws | _ => w :: ws end.

Fixpoint split_run (s : str) : str * list str :=
  match s with
  | [] => ([], [])
  | c :: r =>
      let '(w, ws) := split_run r in
      if Char.isspace c then ([], push_word w ws) else (c :: w, ws)
  end.

Definition split (s : str) : list str :=
  let '(w, ws) := split_run s in push_word w ws.

(** [s.split(c)] for a one-character separator: never empty. *)
Fixpoint split_on (sep : ascii) (s : str) : list str :=
  match s with
  | [] => [[]]
  | c :: r =>
      let l := split_on sep r in
      if Char.eqb c sep then [] :: l
      else match l with
           | w :: ws => (c :: w) :: ws
           | [] => [[c]]
           end
  end.

(** [s.startswith(p)], [s.endswith(p)]. *)
Fixpoint startswith (s p : str) {struct p} : bool :=
  match p, s with
  | [], _ => true
  | a :: p', b :: s' => Char.eqb a b && startswith s' p'
  | _ :: _, [] => false
  end.

Definition endswith (s p : str) : bool := startswith (rev s) (rev p).

(** [s.find(sub)]: the first index at which [sub] occurs, or -1. *)
Fixpoint find_from (i : Z) (s sub : str) : Z :=
  if startswith s sub then i
  else match s with
       | [] => -1
       | _ :: r => find_from (i + 1) r sub
       end.

Definition find (s sub : str) : Z := find_from 0 s sub.

(** [sub in s]. *)
Definition contains (s sub : str) : bool := 0 <=? find s sub.

(** The last index at which a character satisfies [p], or -1;
    [s.rfind(c)] for a one-character [c]. *)
Fixpoint rindex (p : ascii -> bool) (s : str) : Z :=
  match s with
  | [] => -1
  | c :: r =>
      let i := rindex p r in
      if 0 <=? i then i + 1 else if p c then 0 else -1
  end.

Definition rfind (s : str) (c : ascii) : Z := rindex (Char.eqb c) s.

(** [l[lo:hi]] with Python's treatment of negative and out-of-range
    bounds. *)
Definition clip {A : Type} (l : list A) (i : Z) : Z :=
  if i <? 0 then Z.max 0 (i + len l) else Z.min i (len l).

Definition slice {A : Type} (l : list A) (lo hi : Z) : list A :=
  let lo' := clip l lo in
  let hi' := clip l hi in
  firstn (Z.to_nat (hi' - lo')) (skipn (Z.to_nat lo') l).

(** [min(a, b)] and [max(a, b)] on floats: the first argument wins
    unless the second is strictly better. *)
Definition fmin (a b : float) : float := if (b <? a)%float then b else a.
Definition fmax (a b : float) : float := if (a <? b)%float then b else a.

(** [float(n)] for an [int]; exact below 2^53. *)
Definition float_of_int (n : Z) : float :=
  if n <? 0 then (- PrimFloat.of_uint63 (Uint63.of_Z (- n)))%float
  else PrimFloat.of_uint63 (Uint63.of_Z n).

(** [set(l)] keeps one copy of each element; [len(a & b)]. *)
Definition set (l : list str) : list str :=
  nodup (list_eq_dec ascii_dec) l.

Definition mem (x : str) (l : list str) : bool := existsb (str_eqb x) l.

Definition intersection (a b : list str) : list str :=
  filter (fun x => mem x b) a.

End Py.

(** ** The regular expressions of the service *)

Module Re.

(** [re.sub(r'\s+', ' ', s)]: every maximal run of blanks becomes one
    space (the space is emitted at the last blank of the run). *)
Fixpoint sub_spaces (s : str) : str :=
  match s with
  | [] => []
  | c :: r =>
      if Char.isspace c then
        match r with
        | c' :: _ => if Char.isspace c' then sub_spaces r
                     else " "%char :: sub_spaces r
        | [] => [" "%char]
        end
      else c :: sub_spaces r
  end.

(** [\b] between the character [prev] (if any) and the rest [s]. *)
Definition is_word_opt (c : option ascii) : bool :=
  match c with Some x => Char.isword x | None => false end.

Definition boundary (prev : option ascii) (s : str) : bool :=
  xorb (is_word_opt prev) (is_word_opt (hd_error s)).

(** Number of leading [\w] characters. *)
Fixpoint word_run (s : str) : nat :=
  match s with
  | c :: r => if Char.isword c then S (word_run r) else O
  | [] => O
  end.

(** Number of consecutive copies of [g] at the head of [s]. *)
Fixpoint copies (fuel : nat) (g s : str) : nat :=
  match fuel with
  | O => O
  | S f =>
      if Py.startswith s g then S (copies f g (skipn (List.length g) s))
      else O
  end.

(** [\1+\b] after the group [g]: the greedy count of repetitions [k],
    then fewer, until a word boundary follows.  Returns the length
    matched by [\1+]. *)
Fixpoint backref_plus (k : nat) (g s : str) : option nat :=
  match k with
  | O => None
  | S k' =>
      let n := (k * List.length g)%nat in
      if boundary (Some (last g " "%char)) (skipn n s) then Some n
      else backref_plus k' g s
  end.

(** [(\w+)\1+\b] at the head of [s]: group lengths from the longest
    down, as the backtracking matcher tries them. *)
Fixpoint group_try (l : nat) (s : str) : option (str * nat) :=
  match l with
  | O => None
  | S l' =>
      let g := firstn l s in
      let rest := skipn l s in
      match backref_plus (copies (List.length s) g rest) g rest with
      | Some n => Some (g, (l + n)%nat)
      | None => group_try l' s
      end
  end.

(** A match of [\b(\w+)\1+\b] at the head of [s]: group 1 and the
    length of the whole match. *)
Definition match_repeated (prev : option ascii) (s : str)
  : option (str * nat) :=
  if boundary prev s then group_try (word_run s) s else None.

(** [re.sub(r'\b(\w+)\1+\b', r'\1', s)]: leftmost matches, scanned
    left to right; [skip] counts the characters of the current match
    still to be dropped. *)
Fixpoint sub_repeated_from (prev : option ascii) (skip : nat) (s : str)
  : str :=
  match s with
  | [] => []
  | c :: r =>
      match skip with
      | S k => sub_repeated_from (Some c) k r
      | O =>
          match match_repeated prev s with
          | Some (g, n) => g ++ sub_repeated_from (Some c) (Nat.pred n) r
          | None => c :: sub_repeated_from (Some c) O r
          end
      end
  end.

Definition sub_repeated (s : str) : str := sub_repeated_from None O s.

(** [re.sub(r'[^\w\s.,!?;:()-]', '', s)]. *)
Definition allowed (c : ascii) : bool :=
  Char.isword c || Char.isspace c
  || existsb (Char.eqb c) (".,!?;:()-" : str).

Definition sub_special (s : str) : str := filter allowed s.

(** [re.findall(r'\w+', s)]: the maximal runs of word characters. *)
Fixpoint word_tokens_run (s : str) : str * list str :=
  match s with
  | [] => ([], [])
  | c :: r =>
      let '(w, ws) := word_tokens_run r in
      if Char.isword c then (c :: w, ws) else ([], Py.push_word w ws)
  end.

Definition findall_words (s : str) : list str :=
  let '(w, ws) := word_tokens_run s in Py.push_word w ws.

End Re.

(** ** Text normalizer *)

(** [sentence[0].upper() + sentence[1:] if len(sentence) > 1 else
    sentence.upper()] *)
Definition capitalize_sentence (sentence : str) : str :=
  if 1 <? len sentence
  then Py.upper (Py.slice sentence 0 1) ++ Py.slice sentence 1 (len sentence)
  else Py.upper sentence.

(** The body of [for sentence in sentences]: what it appends to
    [processed_sentences]. *)
Definition process_sentence (sentence : str) : list str :=
  let sentence := Py.strip sentence in
  match sentence with
  | [] => []
  | _ => [capitalize_sentence sentence]
  end.

Definition preprocess_text (text : str) : str :=
  match text with
  | [] => []
  | _ =>
      let text := Re.sub_spaces (Py.strip text) in
      let text := Re.sub_repeated text in
      let text := Re.sub_special text in
      let sentences := Py.split_on "." text in
      let processed_sentences := flat_map process_sentence sentences in
      Py.join ". " processed_sentences
  end.

Definition preprocess_question (question : str) : str :=
  match question with
  | [] => []
  | _ =>
      let question := Py.strip question in
      let question :=
        if negb (Py.endswith question "?") then question ++ "?"
        else question in
      match question with
      | [] => question
      | _ => Py.upper (Py.slice question 0 1)
             ++ Py.slice question 1 (len question)
      end
  end.

(** ** Window segmenter *)

Definition stop_words : list str :=
  strs ["what"; "when"; "where"; "who"; "why"; "how"; "is"; "are"; "was";
        "were"; "the"; "a"; "an"].

(** One turn of the [while] loop up to [chunks.append]: the window that
    starts at word [start] and the position [end] after it. *)
Definition window (words : list str) (max_length start : Z) : str * Z :=
  let end_ := Z.min (start + max_length) (len words) in
  let chunk_words := Py.slice words start end_ in
  let chunk_text := Py.join " " chunk_words in
  if end_ <? len words then
    let last_period := Py.rfind chunk_text "." in
    let last_exclamation := Py.rfind chunk_text "!" in
    let last_question := Py.rfind chunk_text "?" in
    let sentence_end :=
      Z.max (Z.max last_period last_exclamation) last_question in
    if (Py.float_of_int (len chunk_text) * 0.7
        <? Py.float_of_int sentence_end)%float
    then
      let chunk_text := Py.slice chunk_text 0 (sentence_end + 1) in
      (chunk_text, start + len (Py.split chunk_text))
    else (chunk_text, end_)
  else (chunk_text, end_).

(** The [while start < len(words)] loop; [None] when the fuel runs out.
    Every turn ends in [chunks.append(chunk_text)] (line 146) and nothing
    is ever removed from [chunks], so a loop that is still running after
    [fuel] turns holds [fuel] windows: with [fuel] the number of windows
    memory has room for, [None] is the MemoryError of the next append. *)
Fixpoint chunk_loop (fuel : nat) (words : list str) (max_length overlap : Z)
  (start : Z) (chunks : list str) : option (list str) :=
  match fuel with
  | O => None
  | S fuel' =>
      if start <? len words then
        let '(chunk_text, end_) := window words max_length start in
        let chunks := chunks ++ [chunk_text] in
        if len words <=? end_ then Some chunks
        else chunk_loop fuel' words max_length overlap (end_ - overlap) chunks
      else Some chunks
  end.

Definition smart_chunking (fuel : nat) (text question : str)
  (max_length overlap : Z) : option (list str) :=
  let words := Py.split text in
  if len words <=? max_length then Some [text]
  else
    let question_words :=
      filter (fun w => negb (Py.mem w stop_words))
             (Py.set (Py.split (Py.lower question))) in
    chunk_loop fuel words max_length overlap 0 [].

(** ** Quality scorer *)

Definition generic_phrases : list str :=
  strs ["i don't know"; "not sure"; "unclear"; "maybe"; "possibly"].

Definition is_empty {A : Type} (l : list A) : bool :=
  match l with [] => true | _ => false end.

Definition calculate_answer_quality (answer question context : str) : float :=
  if is_empty answer || (len (Py.strip answer) <? 3) then 0%float
  else
    let score := 0%float in
    let score := if len answer <? 10 then (score - 0.2)%float else score in
    let question_words := Py.set (Re.findall_words (Py.lower question)) in
    let answer_words := Py.set (Re.findall_words (Py.lower answer)) in
    let keyword_overlap := len (Py.intersection question_words answer_words) in
    let score :=
      if 0 <? keyword_overlap
      then (score + 0.1 * Py.float_of_int keyword_overlap)%float
      else score in
    let score :=
      if existsb (fun phrase => Py.contains (Py.lower answer) phrase)
                 generic_phrases
      then (score - 0.3)%float else score in
    let score :=
      if Py.endswith answer "." || Py.endswith answer "!"
      then (score + 0.1)%float else score in
    Py.fmax 0 (Py.fmin 1 score).

(** ** Answer finalizer *)

(** The three steps of [post_process_answer], in the order of the source:
    "Remove incomplete sentences at the end", "Ensure proper
    capitalization", "Add period if missing". *)
Definition drop_last_fragment (answer : str) : str :=
  let sentences := Py.split_on "." answer in
  if (1 <? len sentences) && (len (Py.strip (last sentences [])) <? 10)
  then Py.join "." (removelast sentences) ++ "."
  else answer.

Definition capitalize_first (answer : str) : str :=
  if negb (is_empty answer) && negb (Py.isupper (Py.slice answer 0 1))
  then Py.upper (Py.slice answer 0 1) ++ Py.slice answer 1 (len answer)
  else answer.

Definition add_period (answer : str) : str :=
  if negb (is_empty answer)
     && negb (Py.endswith answer "." || Py.endswith answer "!"
              || Py.endswith answer "?")
  then answer ++ "."
  else answer.

Definition post_process_answer (answer question : str) : str :=
  match answer with
  | [] => answer
  | _ => Py.strip (add_period (capitalize_first (drop_last_fragment answer)))
  end.

(** ** Answer aggregator and the request *)

Record config := {
  QA_CONFIDENCE_THRESHOLD : float;
  QA_MAX_ANSWER_LENGTH : Z;
  QA_CHUNK_SIZE : Z;
  QA_CHUNK_OVERLAP : Z
}.

Definition default_config : config :=
  {| QA_CONFIDENCE_THRESHOLD := 0.05;
     QA_MAX_ANSWER_LENGTH := 200;
     QA_CHUNK_SIZE := 350;
     QA_CHUNK_OVERLAP := 75 |}.

(** The pipeline called with [question], [context] and [max_answer_len]:
    [None] when the call raises, else the (answer, score) pairs. *)
Definition pipeline_t := str -> str -> Z -> option (list (str * float)).

(** What [_load_qa_model] gives: the pipeline, or [None] when loading
    raises. *)
Record environment := {
  app_config : config;
  load_qa_model : option pipeline_t
}.

(** An entry of [all_answers]. *)
Record candidate := {
  cand_answer : str;
  cand_confidence : float;
  original_confidence : float;
  source_chunk : str;
  chunk_index : Z
}.

(** The dictionary [answer_question] returns. *)
Record result := {
  answer : str;
  confidence : float;
  source_text : str
}.

Inductive outcome :=
| Returned (r : result)
| Raised.

(** A run: how it ended and the pipeline calls it made, in order, each
    with its question and context. *)
Record run := {
  out : outcome;
  pipeline_calls : list (str * str)
}.

Definition input_error_result : result :=
  {| answer := "I couldn't process your question. Please make sure both the transcript and question are valid.";
     confidence := 0;
     source_text := [] |}.

Definition no_answer_result : result :=
  {| answer := "I couldn't find an answer to your question in the transcript. Try asking about specific topics mentioned in the conversation.";
     confidence := 0;
     source_text := [] |}.

Definition not_confident_result : result :=
  {| answer := "I found some potential answers but I'm not confident about them. Could you try rephrasing your question more specifically?";
     confidence := 0;
     source_text := [] |}.

Definition failure_result : result :=
  {| answer := "Sorry, I encountered an error while processing your question. Please try again.";
     confidence := 0;
     source_text := [] |}.

(** The body of [for i, chunk in enumerate(chunks)] for one chunk: the
    entries appended to [all_answers]. *)
Definition chunk_answers (pipeline : pipeline_t) (question : str)
  (max_answer_length : Z) (i : Z) (chunk : str) : list candidate :=
  match pipeline question chunk max_answer_length with
  | None => []
  | Some results =>
      flat_map
        (fun '(text, score) =>
           let answer := Py.strip text in
           let confidence := score in
           if 3 <=? len answer then
             let quality_bonus :=
               calculate_answer_quality answer question chunk in
             let adjusted_confidence := (confidence + quality_bonus)%float in
             [ {| cand_answer := answer;
                  cand_confidence := adjusted_confidence;
                  original_confidence := confidence;
                  source_chunk := chunk;
                  chunk_index := i |} ]
           else [])
        results
  end.

(** The whole [for] loop: [all_answers] and the calls made. *)
Fixpoint collect_answers (pipeline : pipeline_t) (question : str)
  (max_answer_length : Z) (i : Z) (chunks : list str)
  : list candidate * list (str * str) :=
  match chunks with
  | [] => ([], [])
  | chunk :: rest =>
      let here := chunk_answers pipeline question max_answer_length i chunk in
      let '(later, calls) :=
        collect_answers pipeline question max_answer_length (i + 1) rest in
      (here ++ later, (question, chunk) :: calls)
  end.

(** [all_answers.sort(key=lambda x: x['confidence'], reverse=True)]: a
    stable sort, largest adjusted confidence first. *)
Fixpoint insert_desc (x : candidate) (l : list candidate) : list candidate :=
  match l with
  | [] => [x]
  | y :: r =>
      if (cand_confidence x <? cand_confidence y)%float
      then y :: insert_desc x r
      else x :: l
  end.

Definition sort_by_confidence (l : list candidate) : list candidate :=
  fold_right insert_desc [] l.

(** Lines 301 to 320: the answer and its source excerpt. *)
Definition finalize (best_answer : candidate) (question : str) : result :=
  let final_answer := post_process_answer (cand_answer best_answer) question in
  let chunk := source_chunk best_answer in
  let source_start := Z.max 0 (Py.find chunk final_answer - 50) in
  let source_end :=
    Z.min (len chunk) (Py.find chunk final_answer + len final_answer + 50) in
  let source_text := Py.slice chunk source_start source_end in
  {| answer := final_answer;
     confidence := Py.fmin (original_confidence best_answer) 0.95;
     source_text := Py.strip source_text |}.

(** Lines 241 to 320: from the chunks to the result.  ([all_answers[0]]
    on an empty list would raise; the sort keeps the list non-empty, see
    [aggregate_returns].) *)
Definition aggregate (pipeline : pipeline_t) (question : str)
  (max_answer_length : Z) (confidence_threshold : float) (chunks : list str)
  : run :=
  let '(all_answers, calls) :=
    collect_answers pipeline question max_answer_length 0 chunks in
  if is_empty all_answers then
    {| out := Returned no_answer_result; pipeline_calls := calls |}
  else
    match sort_by_confidence all_answers with
    | [] => {| out := Raised; pipeline_calls := calls |}
    | best_answer :: _ =>
        if (original_confidence best_answer <? confidence_threshold)%float
        then {| out := Returned not_confident_result; pipeline_calls := calls |}
        else {| out := Returned (finalize best_answer question);
                pipeline_calls := calls |}
    end.

(** The [try] block of [answer_question].  It raises when loading the
    model raises (line 212) and when the loop of [smart_chunking] exhausts
    memory (line 233); the exceptions of the pipeline calls are caught
    inside [aggregate]. *)
Definition answer_question_body (fuel : nat) (env : environment)
  (transcript question : str) (max_answer_length : option Z) : run :=
  let max_answer_length :=
    match max_answer_length with
    | None => QA_MAX_ANSWER_LENGTH (app_config env)
    | Some n => n
    end in
  let confidence_threshold := QA_CONFIDENCE_THRESHOLD (app_config env) in
  match load_qa_model env with
  | None => {| out := Raised; pipeline_calls := [] |}
  | Some pipeline =>
      let transcript := preprocess_text transcript in
      let question := preprocess_question question in
      if is_empty transcript || is_empty question then
        {| out := Returned input_error_result; pipeline_calls := [] |}
      else
        match smart_chunking fuel transcript question
                (QA_CHUNK_SIZE (app_config env))
                (QA_CHUNK_OVERLAP (app_config env)) with
        | None => {| out := Raised; pipeline_calls := [] |}
        | Some chunks =>
            aggregate pipeline question max_answer_length
              confidence_threshold chunks
        end
  end.

(** [answer_question]: the [try] block under [except Exception]
    (MemoryError is an [Exception]). *)
Definition answer_question (fuel : nat) (env : environment)
  (transcript question : str) (max_answer_length : option Z) : run :=
  let r := answer_question_body fuel env transcript question
             max_answer_length in
  match out r with
  | Raised => {| out := Returned failure_result;
                 pipeline_calls := pipeline_calls r |}
  | _ => r
  end.

(** ** Inputs used in the statements below *)

(** A pipeline that answers every call with the one pair given. *)
Definition stub (text : str) (score : float) : pipeline_t :=
  fun _ _ _ => Some [(text, score)].

Definition default_environment (pipeline : pipeline_t) : environment :=
  {| app_config := default_config; load_qa_model := Some pipeline |}.

Definition failed_environment : environment :=
  {| app_config := default_config; load_qa_model := None |}.

(** 351 words: 75 words of 20 characters that close a sentence, then 276
    one-letter words. *)
Definition long_opening_transcript : str :=
  Py.join " "
    (repeat ("abcdefghijklmnopqrst" : str) 74
     ++ [("abcdefghijklmnopqrs." : str)]
     ++ repeat ("b" : str) 276).

(** 360 words: 60 words of 30 characters that close a sentence, then 300
    one-letter words. *)
Definition short_opening_transcript : str :=
  Py.join " "
    (repeat ("abcdefghijklmnopqrstuvwxyzabcd" : str) 59
     ++ [("abcdefghijklmnopqrstuvwxyzabc." : str)]
     ++ repeat ("b" : str) 300).

Definition john_transcript : str :=
  "John said hello to Mary at 3 PM yesterday in the office.".

(** ** Vocabulary of the statements *)

Definition maybe_candidate (c : candidate) : Prop :=
  cand_answer c = "maybe" /\ original_confidence c = 0.8%float.

(** [s.endswith(('.', '!', '?'))] and [s[:1].isupper()]. *)
Definition ends_in_terminator (s : str) : bool :=
  Py.endswith s "." || Py.endswith s "!" || Py.endswith s "?".

Definition starts_upper (s : str) : bool := Py.isupper (Py.slice s 0 1).

(** [s] starts with one of the 52 ASCII letters, a to z and A to Z. *)
Definition starts_with_ascii_letter (s : str) : bool :=
  match s with c :: _ => Char.isalpha c | [] => false end.

(** The index of the last sentence terminator of [s], or -1: the
    [sentence_end] of [smart_chunking]. *)
Definition sentence_end_of (s : str) : Z :=
  Z.max (Z.max (Py.rfind s ".") (Py.rfind s "!")) (Py.rfind s "?").

(** A word in which a sentence terminator, if there is one, is the last
    character. *)
Definition terminator_closes_word (w : str) : Prop :=
  sentence_end_of w = -1 \/ sentence_end_of w = len w - 1.

(** A word as [split] gives it: not empty, no blank inside. *)
Definition solid (w : str) : Prop := Forall (fun c => Char.isspace c = false) w.
Definition word (w : str) : Prop := w <> [] /\ solid w.

Definition is_terminator (c : ascii) : bool :=
  Char.eqb "." c || Char.eqb "!" c || Char.eqb "?" c.

(** The windows with the overlaps removed: the words of the first window,
    then of each later window without its first [overlap] words. *)
Definition remove_overlaps (overlap : Z) (chunks : list str) : list str :=
  match chunks with
  | [] => []
  | first :: later =>
      Py.split first
      ++ flat_map (fun c => Py.slice (Py.split c) overlap (len (Py.split c)))
                  later
  end.

(** What the loop has covered when it is about to take the window at
    [start]: nothing yet, or the words before [start + overlap]. *)
Definition covered (words : list str) (overlap start : Z)
  (chunks : list str) : Prop :=
  (chunks = [] /\ start = 0 /\ 0 < len words)
  \/ (chunks <> [] /\ 0 <= start /\ start + overlap < len words
      /\ remove_overlaps overlap chunks
         = firstn (Z.to_nat (start + overlap)) words).

(** Empty, or blanks only. *)
Definition blank (s : str) : Prop := Py.strip s = [].

(** A float that is not below zero: no negative number and not minus
    infinity. *)
Definition sf_nonneg (x : spec_float) : Prop :=
  match x with
  | S754_finite true _ _ | S754_infinity true => False
  | _ => True
  end.

(** ** Loading the model *)

(** The module's globals [_qa_model], [_qa_tokenizer] and [_qa_pipeline];
    [None] is Python's [None].  The model and the tokenizer are opaque
    objects of types [M] and [T]. *)
Record qa_globals (M T : Type) := {
  _qa_model : option M;
  _qa_tokenizer : option T;
  _qa_pipeline : option pipeline_t
}.

Arguments _qa_model {M T}.
Arguments _qa_tokenizer {M T}.
Arguments _qa_pipeline {M T}.

(** What the library calls of [_load_qa_model] do when they are made:
    [AutoTokenizer.from_pretrained], [AutoModelForQuestionAnswering
    .from_pretrained] and [pipeline(...)] give an object or raise ([None]);
    [model.eval()] returns or raises ([false]). *)
Record hub (M T : Type) := {
  tokenizer_from_pretrained : option T;
  model_from_pretrained : option M;
  make_pipeline : M -> T -> option pipeline_t;
  model_eval : M -> bool
}.

Arguments tokenizer_from_pretrained {M T}.
Arguments model_from_pretrained {M T}.
Arguments make_pipeline {M T}.
Arguments model_eval {M T}.

Definition fresh_globals {M T : Type} : qa_globals M T :=
  {| _qa_model := None; _qa_tokenizer := None; _qa_pipeline := None |}.

(** [_load_qa_model()]: the globals after the call and what it returns,
    the triple [(_qa_model, _qa_tokenizer, _qa_pipeline)], or [None] when
    it raises.  Each global is assigned as soon as its object is made. *)
Definition _load_qa_model {M T : Type} (h : hub M T) (g : qa_globals M T)
  : qa_globals M T * option (option M * option T * option pipeline_t) :=
  match _qa_model g, _qa_tokenizer g with
  | Some _, Some _ => (g, Some (_qa_model g, _qa_tokenizer g, _qa_pipeline g))
  | _, _ =>
      match tokenizer_from_pretrained h with
      | None => (g, None)
      | Some tokenizer =>
          let g := {| _qa_model := _qa_model g;
                      _qa_tokenizer := Some tokenizer;
                      _qa_pipeline := _qa_pipeline g |} in
          match model_from_pretrained h with
          | None => (g, None)
          | Some model =>
              let g := {| _qa_model := Some model;
                          _qa_tokenizer := _qa_tokenizer g;
                          _qa_pipeline := _qa_pipeline g |} in
              match make_pipeline h model tokenizer with
              | None => (g, None)
              | Some pipeline =>
                  let g := {| _qa_model := _qa_model g;
                              _qa_tokenizer := _qa_tokenizer g;
                              _qa_pipeline := Some pipeline |} in
                  if model_eval h model
                  then (g, Some (_qa_model g, _qa_tokenizer g, _qa_pipeline g))
                  else (g, None)
              end
          end
      end
  end.

(** Calling the third component of the triple: calling [None] raises
    (a TypeError), as a pipeline call can. *)
Definition call_pipeline (pipeline : option pipeline_t) : pipeline_t :=
  match pipeline with
  | Some f => f
  | None => fun _ _ _ => None
  end.

(** A request made with the globals [g]: line 212 calls
    [_load_qa_model()] inside the [try] block and the loop calls the
    pipeline it returned. *)
Definition answer_question_with {M T : Type} (fuel : nat) (cfg : config)
  (h : hub M T) (g : qa_globals M T) (transcript question : str)
  (max_answer_length : option Z) : qa_globals M T * run :=
  let '(g', loaded) := _load_qa_model h g in
  (g',
   answer_question fuel
     {| app_config := cfg;
        load_qa_model :=
          match loaded with
          | Some (_, _, pipeline) => Some (call_pipeline pipeline)
          | None => None
          end |}
     transcript question max_answer_length).

(** ** Vocabulary of the further properties *)

(** A window from which the pipeline gives nothing to rank: the call
    raises, or every answer has fewer than 3 characters once stripped. *)
Definition no_usable_answer (pipeline : pipeline_t) (question : str)
  (max_answer_length : Z) (chunk : str) : Prop :=
  match pipeline question chunk max_answer_length with
  | None => True
  | Some results => Forall (fun r => len (Py.strip (fst r)) < 3) results
  end.

(** What [aggregate] does with [all_answers] once the loop is over. *)
Definition rank_and_gate (question : str) (confidence_threshold : float)
  (all_answers : list candidate) : outcome :=
  if is_empty all_answers then Returned no_answer_result
  else match sort_by_confidence all_answers with
       | [] => Raised
       | best_answer :: _ =>
           if (original_confidence best_answer <? confidence_threshold)%float
           then Returned not_confident_result
           else Returned (finalize best_answer question)
       end.

(** A candidate without its window number. *)
Definition forget_index (c : candidate) : candidate :=
  {| cand_answer := cand_answer c;
     cand_confidence := cand_confidence c;
     original_confidence := original_confidence c;
     source_chunk := source_chunk c;
     chunk_index := 0 |}.

(** [sub] occurs in [s]. *)
Definition occurs_in (sub s : str) : Prop :=
  exists before after, s = before ++ sub ++ after.

(** A character the normalizer lets through: in the allow-list of
    [sub_special], and the space when it is a blank. *)
Definition normal_char (c : ascii) : Prop :=
  Re.allowed c = true /\ (Char.isspace c = true -> c = " "%char).

(** A sentence as the normalizer joins them: it starts and ends with a
    character that is not a blank, and does not end with a period. *)
Definition tidy_sentence (x : str) : Prop :=
  exists d r x0 y,
    x = d :: r /\ rev x = x0 :: y
    /\ Char.isspace d = false /\ Char.isspace x0 = false
    /\ Char.eqb "." x0 = false.

(** The order of the floats that are not NaN, read on their parts: the
    class and sign first, then exponent and mantissa. *)
Definition sf_key (x : spec_float) : Z * Z * Z :=
  match x with
  | S754_infinity true => (-2, 0, 0)
  | S754_finite true m e => (-1, - e, - Zpos m)
  | S754_zero _ => (0, 0, 0)
  | S754_nan => (0, 0, 0)
  | S754_finite false m e => (1, e, Zpos m)
  | S754_infinity false => (2, 0, 0)
  end.

Definition key_lt (a b : Z * Z * Z) : Prop :=
  fst (fst a) < fst (fst b)
  \/ (fst (fst a) = fst (fst b)
      /\ (snd (fst a) < snd (fst b)
          \/ (snd (fst a) = snd (fst b) /\ snd a < snd b))).

(** [x == x] in Python: [x] is not NaN. *)
Definition not_nan (x : float) : Prop := (x =? x)%float = true.

(** ** The request under exceptions outside [Exception]

    [answer_question] and its loop catch with [except Exception] (lines
    274 and 322).  Here a call of library code, loading or the pipeline,
    can also raise an exception that is not an instance of [Exception],
    which neither clause catches. *)

Module Interruptible.

(** What a call raises: an instance of [Exception], or an exception
    outside it ([KeyboardInterrupt], [SystemExit], [GeneratorExit]). *)
Inductive raised :=
| AnException
| OutsideException.

Definition pipeline_t := str -> str -> Z -> list (str * float) + raised.

(** The call as the loop sees it under [except Exception], when it does
    not raise outside [Exception]. *)
Definition catching (pipeline : pipeline_t)
  : str -> str -> Z -> option (list (str * float)) :=
  fun question context max_answer_len =>
    match pipeline question context max_answer_len with
    | inl results => Some results
    | inr _ => None
    end.

(** The [for] loop: [all_answers], or [None] when a pipeline call raises
    outside [Exception], which ends the loop at that window, and the calls
    made. *)
Fixpoint collect_answers (pipeline : pipeline_t) (question : str)
  (max_answer_length : Z) (i : Z) (chunks : list str)
  : option (list candidate) * list (str * str) :=
  match chunks with
  | [] => (Some [], [])
  | chunk :: rest =>
      match pipeline question chunk max_answer_length with
      | inr OutsideException => (None, [(question, chunk)])
      | _ =>
          let here :=
            chunk_answers (catching pipeline) question max_answer_length i
              chunk in
          let '(later, calls) :=
            collect_answers pipeline question max_answer_length (i + 1) rest in
          (option_map (app here) later, (question, chunk) :: calls)
      end
  end.

(** How a [try] block ends. *)
Inductive ending :=
| Returns (r : result)
| Raises (e : raised).

(** The [try] block of [answer_question] and the calls it made. *)
Definition answer_question_body (fuel : nat) (cfg : config)
  (load : pipeline_t + raised) (transcript question : str)
  (max_answer_length : option Z) : ending * list (str * str) :=
  let max_answer_length :=
    match max_answer_length with
    | None => QA_MAX_ANSWER_LENGTH cfg
    | Some n => n
    end in
  let confidence_threshold := QA_CONFIDENCE_THRESHOLD cfg in
  match load with
  | inr e => (Raises e, [])
  | inl pipeline =>
      let transcript := preprocess_text transcript in
      let question := preprocess_question question in
      if is_empty transcript || is_empty question then
        (Returns input_error_result, [])
      else
        match smart_chunking fuel transcript question (QA_CHUNK_SIZE cfg)
                (QA_CHUNK_OVERLAP cfg) with
        | None => (Raises AnException, [])
        | Some chunks =>
            let '(all_answers, calls) :=
              collect_answers pipeline question max_answer_length 0 chunks in
            match all_answers with
            | None => (Raises OutsideException, calls)
            | Some all_answers =>
                (match rank_and_gate question confidence_threshold
                         all_answers with
                 | Returned r => Returns r
                 | Raised => Raises AnException
                 end, calls)
            end
        end
  end.

(** [answer_question]: [except Exception] turns an instance of
    [Exception] into the failure result; any other exception leaves the
    function ([Raised]). *)
Definition answer_question (fuel : nat) (cfg : config)
  (load : pipeline_t + raised) (transcript question : str)
  (max_answer_length : option Z) : run :=
  let '(e, calls) :=
    answer_question_body fuel cfg load transcript question
      max_answer_length in
  match e with
  | Returns r => {| out := Returned r; pipeline_calls := calls |}
  | Raises AnException =>
      {| out := Returned failure_result; pipeline_calls := calls |}
  | Raises OutsideException => {| out := Raised; pipeline_calls := calls |}
  end.


(** Loading as [environment] has it. *)
Definition loaded (load : pipeline_t + raised)
  : option (str -> str -> Z -> option (list (str * float))) :=
  match load with
  | inl pipeline => Some (catching pipeline)
  | inr _ => None
  end.

End Interruptible.

(** ** Facts about floats *)

Lemma ltb_leb (a b : float) : (a <? b)%float = true -> (a <=? b)%float = true.
Proof.
  rewrite ltb_spec, leb_spec. unfold SFltb, SFleb.
  destruct (SFcompare _ _) as [[]|]; intros; try discriminate; reflexivity.
Qed.

Lemma clamp_lower (x : float) : (0 <=? Py.fmax 0 (Py.fmin 1 x))%float = true.
Proof.
  unfold Py.fmax, Py.fmin.
  destruct (x <? 1)%float eqn:E1.
  - destruct (0 <? x)%float eqn:E2; [ now apply ltb_leb | reflexivity ].
  - reflexivity.
Qed.

Lemma clamp_upper (x : float) : (Py.fmax 0 (Py.fmin 1 x) <=? 1)%float = true.
Proof.
  unfold Py.fmax, Py.fmin.
  destruct (x <? 1)%float eqn:E1.
  - destruct (0 <? x)%float eqn:E2; [ now apply ltb_leb | reflexivity ].
  - reflexivity.
Qed.

(** ** Quality scorer: the clamp *)

(** C5: for every answer, question and window the delta of
    [calculate_answer_quality] lies in the closed interval [0.0, 1.0]; the
    clamp bounds the delta, which is then added to the raw score of the
    pipeline, and the sum (the adjusted score) can exceed 1. *)
Theorem quality_delta_in_unit_interval :
  (forall answer question context,
      (0 <=? calculate_answer_quality answer question context)%float = true
      /\ (calculate_answer_quality answer question context <=? 1)%float = true)
  /\ (forall pipeline question max_answer_length i chunk,
         Forall (fun c =>
                   cand_confidence c
                   = (original_confidence c
                      + calculate_answer_quality (cand_answer c) question chunk)%float)
                (chunk_answers pipeline question max_answer_length i chunk))
  /\ (exists c,
         chunk_answers (stub "John said hello." 0.9) "Who said hello?" 200 0
                       john_transcript = [c]
         /\ (1 <? cand_confidence c)%float = true).
Proof.
  split; [ | split ].
  - intros answer question context. unfold calculate_answer_quality.
    destruct (is_empty answer || (len (Py.strip answer) <? 3)).
    + split; reflexivity.
    + split; [ apply clamp_lower | apply clamp_upper ].
  - intros pipeline question mal i chunk. unfold chunk_answers.
    destruct (pipeline question chunk mal) as [results|]; [ | constructor ].
    induction results as [ | [text score] results IH ]; [ constructor | ].
    cbn [flat_map]. apply Forall_app. split; [ | exact IH ].
    destruct (3 <=? len (Py.strip text)); constructor; [ reflexivity | constructor ].
  - eexists. split; [ vm_compute; reflexivity | vm_compute; reflexivity ].
Qed.

(** ** Sorting the candidates *)

Lemma insert_desc_not_nil (x : candidate) (l : list candidate) :
  insert_desc x l <> [].
Proof.
  destruct l as [ | y r ]; cbn; [ discriminate | ].
  destruct (cand_confidence x <? cand_confidence y)%float; discriminate.
Qed.

Lemma insert_desc_Forall (P : candidate -> Prop) (x : candidate)
  (l : list candidate) :
  P x -> Forall P l -> Forall P (insert_desc x l).
Proof.
  intros Hx Hl. induction Hl as [ | y r Hy Hr IH ]; cbn.
  - constructor; [ exact Hx | constructor ].
  - destruct (cand_confidence x <? cand_confidence y)%float.
    + constructor; assumption.
    + constructor; [ exact Hx | constructor; assumption ].
Qed.

Lemma sort_by_confidence_Forall (P : candidate -> Prop) (l : list candidate) :
  Forall P l -> Forall P (sort_by_confidence l).
Proof.
  induction 1 as [ | x l Hx Hl IH ]; cbn; [ constructor | ].
  apply insert_desc_Forall; assumption.
Qed.

Lemma sort_by_confidence_nil (l : list candidate) :
  sort_by_confidence l = [] -> l = [].
Proof.
  destruct l as [ | x l ]; [ reflexivity | ].
  cbn. intros H. now apply insert_desc_not_nil in H.
Qed.

(** ** Answer aggregator: the confidence gate *)

Lemma aggregate_unfold (pipeline : pipeline_t) (question : str)
  (max_answer_length : Z) (confidence_threshold : float) (chunks : list str) :
  out (aggregate pipeline question max_answer_length confidence_threshold chunks)
  = let all_answers :=
      fst (collect_answers pipeline question max_answer_length 0 chunks) in
    if is_empty all_answers then Returned no_answer_result
    else match sort_by_confidence all_answers with
         | [] => Raised
         | best_answer :: _ =>
             if (original_confidence best_answer <? confidence_threshold)%float
             then Returned not_confident_result
             else Returned (finalize best_answer question)
         end.
Proof.
  unfold aggregate.
  destruct (collect_answers pipeline question max_answer_length 0 chunks)
    as [all_answers calls].
  cbn [fst]. destruct (is_empty all_answers); [ reflexivity | ].
  destruct (sort_by_confidence all_answers) as [ | best rest ]; [ reflexivity | ].
  destruct (original_confidence best <? confidence_threshold)%float; reflexivity.
Qed.

(** C3: when the candidate ranked first by adjusted score has a raw score
    below the threshold, the aggregator returns the fixed "not confident"
    result (confidence 0, empty excerpt); the gate reads the raw score only,
    so a first candidate whose raw score is not below the threshold is
    answered, and when every candidate has a raw score below the threshold
    no answer is returned, whatever the ranking. *)
Theorem confidence_gate_reads_raw_score :
  forall pipeline question max_answer_length confidence_threshold chunks,
    let all_answers :=
      fst (collect_answers pipeline question max_answer_length 0 chunks) in
    let r :=
      aggregate pipeline question max_answer_length confidence_threshold
        chunks in
    (forall best rest,
        sort_by_confidence all_answers = best :: rest ->
        (original_confidence best <? confidence_threshold)%float = true ->
        out r = Returned not_confident_result)
    /\ (forall best rest,
           sort_by_confidence all_answers = best :: rest ->
           (original_confidence best <? confidence_threshold)%float = false ->
           out r = Returned (finalize best question))
    /\ (Forall (fun c =>
                  (original_confidence c <? confidence_threshold)%float = true)
               all_answers ->
        out r = Returned no_answer_result
        \/ out r = Returned not_confident_result).
Proof.
  intros pipeline question mal thr chunks all_answers r.
  assert (E := aggregate_unfold pipeline question mal thr chunks).
  fold all_answers r in E. cbv zeta in E.
  split; [ | split ].
  - intros best rest Hs Hlow. rewrite E, Hs, Hlow.
    destruct all_answers; [ discriminate Hs | reflexivity ].
  - intros best rest Hs Hhigh. rewrite E, Hs, Hhigh.
    destruct all_answers; [ discriminate Hs | reflexivity ].
  - intros Hall. rewrite E.
    destruct (is_empty all_answers) eqn:Hnil; [ now left | right ].
    destruct (sort_by_confidence all_answers) as [ | best rest ] eqn:Hs.
    + apply sort_by_confidence_nil in Hs. rewrite Hs in Hnil. discriminate.
    + apply sort_by_confidence_Forall in Hall. rewrite Hs in Hall.
      inversion Hall as [ | ? ? Hbest _ ]; subst. now rewrite Hbest.
Qed.

(** A candidate with raw score 0.01 and adjusted score 0.31, against the
    threshold 0.05. *)
Lemma confidence_gate_reads_raw_score_witness :
  let r := aggregate (stub "John said hello." 0.01) "Who said hello?" 200 0.05
             [preprocess_text john_transcript] in
  out r = Returned not_confident_result
  /\ (out r = Returned no_answer_result \/ out r = Returned not_confident_result).
Proof.
  split.
  - eapply (proj1 (confidence_gate_reads_raw_score
                     (stub "John said hello." 0.01) "Who said hello?" 200 0.05
                     [preprocess_text john_transcript])); reflexivity.
  - apply (proj2 (proj2 (confidence_gate_reads_raw_score
                     (stub "John said hello." 0.01) "Who said hello?" 200 0.05
                     [preprocess_text john_transcript]))).
    repeat constructor.
Defined.

(** ** The "maybe" scenario *)

Lemma mem_single (x a : str) : Py.mem x [a] = true -> x = a.
Proof.
  unfold Py.mem, str_eqb. cbn [existsb].
  destruct (list_eq_dec ascii_dec x a); [ auto | discriminate ].
Qed.

Lemma filter_absent (a : str) (l : list str) :
  ~ In a l -> filter (fun x => Py.mem x [a]) l = [].
Proof.
  induction l as [ | x l IH ]; intros Hn; [ reflexivity | ].
  cbn [filter]. destruct (Py.mem x [a]) eqn:M.
  - exfalso. apply Hn. left. now apply mem_single.
  - apply IH. intros Hin. apply Hn. now right.
Qed.

Lemma filter_single_NoDup (a : str) (l : list str) :
  NoDup l -> (List.length (filter (fun x => Py.mem x [a]) l) <= 1)%nat.
Proof.
  induction 1 as [ | x l Hx Hl IH ]; [ cbn; lia | ].
  cbn [filter]. destruct (Py.mem x [a]) eqn:M.
  - apply mem_single in M. subst x.
    rewrite (filter_absent a l Hx). cbn. lia.
  - exact IH.
Qed.

Lemma maybe_keyword_overlap (question : str) :
  let k := len (Py.intersection
                  (Py.set (Re.findall_words (Py.lower question)))
                  (Py.set (Re.findall_words (Py.lower "maybe")))) in
  k = 0 \/ k = 1.
Proof.
  cbv zeta. unfold Py.intersection, len.
  change (Py.set (Re.findall_words (Py.lower "maybe"))) with [("maybe" : str)].
  pose proof (filter_single_NoDup "maybe"
                (Py.set (Re.findall_words (Py.lower question)))
                (NoDup_nodup _ _)) as H.
  lia.
Qed.

Lemma maybe_quality (question context : str) :
  calculate_answer_quality "maybe" question context = 0%float.
Proof.
  unfold calculate_answer_quality.
  change (is_empty ("maybe" : str) || (len (Py.strip "maybe") <? 3)) with false.
  cbv iota zeta.
  destruct (maybe_keyword_overlap question) as [E | E]; cbv zeta in E;
    rewrite E; vm_compute; reflexivity.
Qed.

Lemma maybe_chunk_answers (question : str) (max_answer_length i : Z)
  (chunk : str) :
  chunk_answers (stub "maybe" 0.8) question max_answer_length i chunk
  = [ {| cand_answer := "maybe";
         cand_confidence := 0.8;
         original_confidence := 0.8;
         source_chunk := chunk;
         chunk_index := i |} ].
Proof.
  unfold chunk_answers, stub. cbn [flat_map].
  change (Py.strip "maybe") with ("maybe" : str).
  change (3 <=? len ("maybe" : str)) with true. cbv iota.
  rewrite maybe_quality. reflexivity.
Qed.

Lemma maybe_collect (question : str) (max_answer_length : Z)
  (chunks : list str) (i : Z) :
  Forall maybe_candidate
    (fst (collect_answers (stub "maybe" 0.8) question max_answer_length i chunks)).
Proof.
  revert i. induction chunks as [ | chunk rest IH ]; intros i.
  - constructor.
  - cbn [collect_answers]. specialize (IH (i + 1)).
    destruct (collect_answers (stub "maybe" 0.8) question max_answer_length
                (i + 1) rest) as [later calls].
    cbn [fst] in *. rewrite maybe_chunk_answers. cbn [app].
    constructor; [ split; reflexivity | exact IH ].
Qed.

(** The claim of C4 fails: the delta of "maybe" is not -0.3 (and the
    adjusted score is not 0.5). *)
Lemma maybe_delta_is_not_minus_three_tenths :
  ~ (calculate_answer_quality "maybe" "Will it rain?"
       (preprocess_text "It will maybe rain tomorrow.")
     = (-0.3)%float
     /\ map cand_confidence
          (chunk_answers (stub "maybe" 0.8) "Will it rain?" 200 0
             (preprocess_text "It will maybe rain tomorrow."))
        = [0.5%float]).
Proof.
  intros [H _].
  apply (f_equal (fun x => (x <? 0)%float)) in H.
  vm_compute in H. discriminate H.
Qed.

(** C4 (amended): when the pipeline returns only ("maybe", 0.8), the
    penalties are clamped away: the delta is 0.0, the adjusted score is 0.8,
    and with the threshold 0.05 the answer "Maybe." is returned with
    confidence 0.8, by the aggregator on any windows and by the request
    on a transcript that holds the word. *)
Theorem maybe_scenario :
  forall question chunk rest max_answer_length,
    calculate_answer_quality "maybe" question chunk = 0%float
    /\ chunk_answers (stub "maybe" 0.8) question max_answer_length 0 chunk
       = [ {| cand_answer := "maybe";
              cand_confidence := 0.8;
              original_confidence := 0.8;
              source_chunk := chunk;
              chunk_index := 0 |} ]
    /\ (exists excerpt,
          out (aggregate (stub "maybe" 0.8) question max_answer_length 0.05
                 (chunk :: rest))
          = Returned {| answer := "Maybe.";
                        confidence := 0.8;
                        source_text := excerpt |})
    /\ out (answer_question 1 (default_environment (stub "maybe" 0.8))
              "It will maybe rain tomorrow." "Will it rain?" None)
       = Returned {| answer := "Maybe.";
                     confidence := 0.8;
                     source_text := "It will maybe rain tomorrow" |}.
Proof.
  intros question chunk rest mal.
  split; [ apply maybe_quality | ].
  split; [ apply maybe_chunk_answers | ].
  split; [ | vm_compute; reflexivity ].
  rewrite aggregate_unfold. cbv zeta.
  pose proof (maybe_collect question mal (chunk :: rest) 0) as Hall.
  destruct (is_empty _) eqn:Hnil.
  { exfalso. revert Hnil. cbn [collect_answers].
    destruct (collect_answers _ _ _ _ rest) as [later calls].
    cbn [fst]. rewrite maybe_chunk_answers. discriminate. }
  destruct (sort_by_confidence _) as [ | best others ] eqn:Hs.
  { apply sort_by_confidence_nil in Hs. rewrite Hs in Hnil. discriminate. }
  apply sort_by_confidence_Forall in Hall. rewrite Hs in Hall.
  inversion Hall as [ | ? ? [Ha Hc] _ ]; subst.
  rewrite Hc. change (0.8 <? 0.05)%float with false. cbv iota.
  eexists. unfold finalize. rewrite Ha, Hc. reflexivity.
Qed.

(** ** Text normalizer: repeated words *)

(** C6: on "the the" the normalizer keeps both words: the pattern
    [\b(\w+)\1+\b] asks for the copy right after the word, with no blank
    between, so it rewrites "thethe" and leaves "the the" alone. *)
Theorem doubled_word_is_kept :
  preprocess_text "the the" = "The the"
  /\ Re.sub_repeated "the the" = "the the"
  /\ Re.sub_repeated "thethe" = "the".
Proof. repeat split; vm_compute; reflexivity. Qed.

(** Words that are a repetition of their first half are shortened. *)
Lemma halved_words :
  preprocess_text "mama said 2020 was bye bye" = "Ma said 20 was bye bye".
Proof. vm_compute. reflexivity. Qed.

(** ** Answer finalizer: the source excerpt *)

(** When [find] gives -1 the excerpt is the head of the chunk, up to the
    length of the answer plus 49 characters. *)
Lemma excerpt_when_not_found (best_answer : candidate) (question : str) :
  Py.find (source_chunk best_answer)
          (post_process_answer (cand_answer best_answer) question) = -1 ->
  source_text (finalize best_answer question)
  = Py.strip
      (Py.slice (source_chunk best_answer) 0
         (Z.min (len (source_chunk best_answer))
            (len (post_process_answer (cand_answer best_answer) question)
             + 49))).
Proof.
  intros H. unfold finalize. cbn [source_text]. rewrite H.
  change (Z.max 0 (-1 - 50)) with 0.
  replace (-1 + len (post_process_answer (cand_answer best_answer) question)
           + 50)
    with (len (post_process_answer (cand_answer best_answer) question) + 49)
    by lia.
  reflexivity.
Qed.

(** C7: for the transcript "John said hello to Mary at 3 PM yesterday in
    the office." and the pipeline answer "John", the finalized answer
    "John." does not occur in the window, and the excerpt returned is the
    first 54 characters of the window, not the empty string. *)
Theorem excerpt_of_absent_answer :
  Py.find (preprocess_text john_transcript) "John." = -1
  /\ answer_question 1 (default_environment (stub "John" 0.9))
       john_transcript "Who said hello?" None
     = {| out :=
            Returned
              {| answer := "John.";
                 confidence := 0.9;
                 source_text :=
                   "John said hello to Mary at 3 PM yesterday in the offic" |};
          pipeline_calls :=
            [("Who said hello?" : str,
              "John said hello to Mary at 3 PM yesterday in the office" : str)]
       |}.
Proof. split; vm_compute; reflexivity. Qed.

(** ** Window segmenter: turns that do not advance *)

(** A turn that computes the start it began with repeats for ever. *)
Lemma chunk_loop_stuck (words : list str) (max_length overlap start : Z) :
  (start <? len words) = true ->
  (len words <=? snd (window words max_length start)) = false ->
  snd (window words max_length start) - overlap = start ->
  forall fuel chunks,
    chunk_loop fuel words max_length overlap start chunks = None.
Proof.
  intros Hlt Hend Hback fuel.
  induction fuel as [ | fuel IH ]; intros chunks; [ reflexivity | ].
  cbn [chunk_loop]. rewrite Hlt.
  destruct (window words max_length start) as [chunk_text end_] eqn:W.
  cbn [snd] in Hend, Hback. rewrite Hend, Hback. apply IH.
Qed.

(** C1: with max_length 4 and overlap 2 the segmenter does not return on
    "Congratulations everybody. We did it": the first window is cut back to
    its first sentence, two words, and the next start, 2 - 2, is the start
    again.  No amount of fuel gives a result. *)
Theorem chunking_repeats_first_window :
  forall fuel question,
    smart_chunking fuel "Congratulations everybody. We did it" question 4 2
    = None.
Proof.
  intros fuel question. unfold smart_chunking.
  change (len (Py.split "Congratulations everybody. We did it") <=? 4)
    with false.
  cbv iota zeta.
  apply chunk_loop_stuck; vm_compute; reflexivity.
Qed.

(** The first turn of that run. *)
Lemma first_window_of_repeating_run :
  window (Py.split "Congratulations everybody. We did it") 4 0
  = ("Congratulations everybody." : str, 2).
Proof. vm_compute. reflexivity. Qed.

(** The same with an overlap that is not below the window size. *)
Lemma chunking_repeats_with_full_overlap :
  forall fuel question, smart_chunking fuel "a b c" question 2 2 = None.
Proof.
  intros fuel question. unfold smart_chunking.
  change (len (Py.split "a b c") <=? 2) with false. cbv iota zeta.
  apply chunk_loop_stuck; vm_compute; reflexivity.
Qed.

(** With the default sizes, 350 and 75, on the normalized
    [long_opening_transcript]: the first window is cut back to its first 75
    words and the next start is 75 - 75. *)
Lemma default_chunking_repeats :
  forall fuel question,
    smart_chunking fuel (preprocess_text long_opening_transcript) question
      350 75 = None.
Proof.
  intros fuel question. unfold smart_chunking.
  assert (E : (len (Py.split (preprocess_text long_opening_transcript))
               <=? 350) = false) by (vm_compute; reflexivity).
  rewrite E. cbv iota zeta.
  apply chunk_loop_stuck; vm_compute; reflexivity.
Qed.

(** ** The request: outcomes *)


Lemma load_failure_is_failure_result (fuel : nat) (env : environment)
  (transcript question : str) (max_answer_length : option Z) :
  load_qa_model env = None ->
  answer_question fuel env transcript question max_answer_length
  = {| out := Returned failure_result; pipeline_calls := [] |}.
Proof.
  intros H. unfold answer_question, answer_question_body. rewrite H.
  reflexivity.
Qed.

Lemma aggregate_returns (pipeline : pipeline_t) (question : str)
  (max_answer_length : Z) (confidence_threshold : float) (chunks : list str) :
  exists r,
    out (aggregate pipeline question max_answer_length confidence_threshold
           chunks) = Returned r.
Proof.
  rewrite aggregate_unfold. cbv zeta.
  destruct (is_empty _) eqn:Hnil; [ eexists; reflexivity | ].
  destruct (sort_by_confidence _) as [ | best rest ] eqn:Hs.
  - apply sort_by_confidence_nil in Hs. rewrite Hs in Hnil. discriminate.
  - destruct (original_confidence best <? confidence_threshold)%float;
      eexists; reflexivity.
Qed.

(** Whenever the segmenter returns, the request returns a result. *)
Lemma answer_question_returns (fuel : nat) (env : environment)
  (transcript question : str) (max_answer_length : option Z)
  (chunks : list str) :
  smart_chunking fuel (preprocess_text transcript)
    (preprocess_question question) (QA_CHUNK_SIZE (app_config env))
    (QA_CHUNK_OVERLAP (app_config env)) = Some chunks ->
  exists r,
    out (answer_question fuel env transcript question max_answer_length)
    = Returned r.
Proof.
  intros Hc. unfold answer_question, answer_question_body.
  destruct (load_qa_model env) as [pipeline | ]; [ | eexists; reflexivity ].
  destruct (is_empty _ || is_empty _); [ eexists; reflexivity | ].
  rewrite Hc.
  destruct (aggregate_returns pipeline (preprocess_question question)
              match max_answer_length with
              | Some n => n
              | None => QA_MAX_ANSWER_LENGTH (app_config env)
              end
              (QA_CONFIDENCE_THRESHOLD (app_config env)) chunks) as [r Hr].
  exists r. rewrite Hr. exact Hr.
Qed.


(** A segmentation that exhausts memory gives the failure result. *)
Lemma chunking_failure_is_failure_result (fuel : nat) (env : environment)
  (pipeline : pipeline_t) (transcript question : str)
  (max_answer_length : option Z) :
  load_qa_model env = Some pipeline ->
  preprocess_text transcript <> [] ->
  preprocess_question question <> [] ->
  smart_chunking fuel (preprocess_text transcript)
    (preprocess_question question) (QA_CHUNK_SIZE (app_config env))
    (QA_CHUNK_OVERLAP (app_config env)) = None ->
  answer_question fuel env transcript question max_answer_length
  = {| out := Returned failure_result; pipeline_calls := [] |}.
Proof.
  intros Hl Ht Hq Hc. unfold answer_question, answer_question_body.
  rewrite Hl.
  destruct (preprocess_text transcript); [ contradiction | ].
  destruct (preprocess_question question); [ contradiction | ].
  cbn [is_empty orb]. rewrite Hc. reflexivity.
Qed.

(** The request on [long_opening_transcript] with the default sizes: the
    segmenter repeats its first window until memory is exhausted. *)
Lemma stuck_request_is_failure_result (fuel : nat) (pipeline : pipeline_t) :
  answer_question fuel (default_environment pipeline)
    long_opening_transcript "What is discussed?" None
  = {| out := Returned failure_result; pipeline_calls := [] |}.
Proof.
  apply (chunking_failure_is_failure_result fuel
           (default_environment pipeline) pipeline).
  - reflexivity.
  - assert (E : is_empty (preprocess_text long_opening_transcript) = false)
      by (vm_compute; reflexivity).
    intros H. rewrite H in E. discriminate E.
  - vm_compute. discriminate.
  - apply default_chunking_repeats.
Qed.

(** ** Slices and blanks *)

Lemma len_nonneg {A : Type} (l : list A) : 0 <= len l.
Proof. unfold len. lia. Qed.

Lemma len_cons {A : Type} (x : A) (l : list A) : len (x :: l) = len l + 1.
Proof. unfold len. cbn [List.length]. lia. Qed.

Lemma len_app {A : Type} (a b : list A) : len (a ++ b) = len a + len b.
Proof. unfold len. rewrite length_app. lia. Qed.

Lemma slice_span {A : Type} (l : list A) (lo hi : Z) :
  0 <= lo <= hi -> hi <= len l ->
  Py.slice l lo hi = firstn (Z.to_nat (hi - lo)) (skipn (Z.to_nat lo) l).
Proof.
  intros H1 H2. unfold Py.slice, Py.clip.
  destruct (lo <? 0) eqn:E1; [ lia | ].
  destruct (hi <? 0) eqn:E2; [ lia | ].
  rewrite !Z.min_l by lia. reflexivity.
Qed.

Lemma slice_prefix {A : Type} (l : list A) (hi : Z) :
  0 <= hi -> Py.slice l 0 hi = firstn (Z.to_nat hi) l.
Proof.
  intros H. unfold Py.slice, Py.clip.
  change (0 <? 0) with false. cbv iota.
  destruct (hi <? 0) eqn:E; [ lia | ].
  pose proof (len_nonneg l) as Hl.
  rewrite (Z.min_l 0) by lia. cbn [Z.to_nat skipn]. rewrite Z.sub_0_r.
  destruct (Z.le_ge_cases hi (len l)) as [Hle | Hge].
  - rewrite Z.min_l by lia. reflexivity.
  - rewrite Z.min_r by lia.
    rewrite !firstn_all2; [ reflexivity | unfold len in *; lia | unfold len; lia ].
Qed.

Lemma slice_suffix {A : Type} (l : list A) (lo : Z) :
  0 <= lo -> Py.slice l lo (len l) = skipn (Z.to_nat lo) l.
Proof.
  intros H. unfold Py.slice, Py.clip.
  pose proof (len_nonneg l) as Hl.
  destruct (lo <? 0) eqn:E1; [ lia | ].
  destruct (len l <? 0) eqn:E2; [ lia | ].
  rewrite (Z.min_id (len l)).
  rewrite firstn_all2 by (rewrite length_skipn; unfold len in *; lia).
  destruct (Z.le_ge_cases lo (len l)) as [Hle | Hge].
  - rewrite Z.min_l by lia. reflexivity.
  - rewrite Z.min_r by lia.
    rewrite !skipn_all2; [ reflexivity | unfold len in *; lia | unfold len; lia ].
Qed.

Lemma slice_head (c : ascii) (r : str) : Py.slice (c :: r) 0 1 = [c].
Proof. rewrite slice_prefix by lia. reflexivity. Qed.

Lemma slice_tail (c : ascii) (r : str) :
  Py.slice (c :: r) 1 (len (c :: r)) = r.
Proof. rewrite slice_suffix by lia. reflexivity. Qed.

Lemma lstrip_keeps_last (body : str) (c : ascii) :
  Char.isspace c = false ->
  exists body', Py.lstrip (body ++ [c]) = body' ++ [c].
Proof.
  intros Hc. induction body as [ | b body IH ]; cbn.
  - rewrite Hc. now exists [].
  - destruct (Char.isspace b); [ exact IH | now exists (b :: body) ].
Qed.

Lemma rstrip_keeps_last (body : str) (c : ascii) :
  Char.isspace c = false -> Py.rstrip (body ++ [c]) = body ++ [c].
Proof.
  intros Hc. unfold Py.rstrip. rewrite rev_app_distr. cbn.
  rewrite Hc. cbn. now rewrite rev_involutive.
Qed.

Lemma rstrip_keeps_first (c : ascii) (r : str) :
  Char.isspace c = false -> exists r', Py.rstrip (c :: r) = c :: r'.
Proof.
  intros Hc. unfold Py.rstrip. cbn [rev].
  destruct (lstrip_keeps_last (rev r) c Hc) as [body' E].
  rewrite E, rev_app_distr. cbn. now exists (rev body').
Qed.

Lemma strip_keeps_last (body : str) (c : ascii) :
  Char.isspace c = false ->
  exists body', Py.strip (body ++ [c]) = body' ++ [c].
Proof.
  intros Hc. unfold Py.strip.
  destruct (lstrip_keeps_last body c Hc) as [body' E].
  rewrite E, rstrip_keeps_last by exact Hc. now exists body'.
Qed.

Lemma strip_keeps_first (c : ascii) (r : str) :
  Char.isspace c = false -> exists r', Py.strip (c :: r) = c :: r'.
Proof.
  intros Hc. unfold Py.strip. cbn [Py.lstrip]. rewrite Hc.
  now apply rstrip_keeps_first.
Qed.

(** ** Answer finalizer: the shape of the answer *)

Lemma endswith_last (body : str) (c d : ascii) :
  Py.endswith (body ++ [c]) [d] = Char.eqb d c.
Proof.
  unfold Py.endswith. rewrite rev_app_distr. cbn.
  apply andb_true_r.
Qed.

Lemma ends_in_terminator_last (body : str) (c : ascii) :
  ends_in_terminator (body ++ [c])
  = Char.eqb "." c || Char.eqb "!" c || Char.eqb "?" c.
Proof.
  unfold ends_in_terminator.
  change ("." : str) with ["."%char]. change ("!" : str) with ["!"%char].
  change ("?" : str) with ["?"%char].
  now rewrite !endswith_last.
Qed.

Lemma terminator_not_space (c : ascii) :
  Char.eqb "." c || Char.eqb "!" c || Char.eqb "?" c = true ->
  Char.isspace c = false.
Proof.
  unfold Char.eqb. intros H.
  destruct (Ascii.eqb_spec "." c) as [E | _]; [ now subst c | ].
  destruct (Ascii.eqb_spec "!" c) as [E | _]; [ now subst c | ].
  destruct (Ascii.eqb_spec "?" c) as [E | _]; [ now subst c | ].
  discriminate H.
Qed.

Lemma strip_keeps_terminator (s : str) :
  ends_in_terminator s = true -> ends_in_terminator (Py.strip s) = true.
Proof.
  destruct (rev s) as [ | c r ] eqn:E.
  - apply (f_equal (@rev ascii)) in E. rewrite rev_involutive in E.
    subst s. discriminate.
  - apply (f_equal (@rev ascii)) in E. rewrite rev_involutive in E.
    cbn in E. subst s. rewrite ends_in_terminator_last. intros H.
    destruct (strip_keeps_last (rev r) c (terminator_not_space c H))
      as [body' E'].
    rewrite E', ends_in_terminator_last. exact H.
Qed.

Lemma upper_of_letter (c : ascii) :
  Char.isalpha c = true ->
  Char.isupper (Char.upper c) = true
  /\ Char.isspace (Char.upper c) = false
  /\ (Char.isupper c = true -> Char.upper c = c)
  /\ Char.eqb c "." = false.
Proof.
  destruct c as [[] [] [] [] [] [] [] []]; cbn; intros H;
    try discriminate H; repeat split; auto; discriminate.
Qed.

Lemma isupper_single (c : ascii) :
  Char.isalpha c = true -> Py.isupper [c] = Char.isupper c.
Proof.
  destruct c as [[] [] [] [] [] [] [] []]; cbn; intros H;
    try discriminate H; reflexivity.
Qed.

Lemma upper_single (c : ascii) :
  Char.isalpha c = true -> Py.isupper [Char.upper c] = true.
Proof.
  destruct c as [[] [] [] [] [] [] [] []]; cbn; intros H;
    try discriminate H; reflexivity.
Qed.

Lemma split_on_cons (sep : ascii) (s : str) :
  exists w ws, Py.split_on sep s = w :: ws.
Proof.
  induction s as [ | c r [w [ws IH]] ]; cbn.
  - now exists [], [].
  - rewrite IH. destruct (Char.eqb c sep); eauto.
Qed.

Lemma join_head (sep : str) (c : ascii) (w : str) (l : list str) :
  exists r, Py.join sep ((c :: w) :: l) = c :: r.
Proof. destruct l; cbn; eauto. Qed.

(** After the first step the text still starts with its first letter. *)
Lemma drop_last_fragment_first (c : ascii) (rest : str) :
  Char.eqb c "." = false ->
  exists r, drop_last_fragment (c :: rest) = c :: r.
Proof.
  intros Hc. unfold drop_last_fragment.
  destruct (_ && _) eqn:Hcut; [ | eauto ].
  apply andb_prop in Hcut. destruct Hcut as [Hlen _].
  cbn [Py.split_on] in *. rewrite Hc in *.
  destruct (split_on_cons "." rest) as [w [ws E]]. rewrite E in *.
  destruct ws as [ | w' ws ]; [ discriminate Hlen | ].
  change (removelast ((c :: w) :: w' :: ws))
    with ((c :: w) :: removelast (w' :: ws)).
  destruct (join_head "." c w (removelast (w' :: ws))) as [r Hr].
  rewrite Hr. cbn. eauto.
Qed.

Lemma drop_last_fragment_not_nil (answer : str) :
  answer <> [] -> drop_last_fragment answer <> [].
Proof.
  intros Hne. unfold drop_last_fragment.
  destruct (_ && _); [ | exact Hne ].
  destruct (Py.join "." _); discriminate.
Qed.

Lemma capitalize_first_cons (d : ascii) (r : str) :
  capitalize_first (d :: r) = d :: r
  \/ capitalize_first (d :: r) = Char.upper d :: r.
Proof.
  unfold capitalize_first. rewrite slice_head, slice_tail.
  destruct (_ && _); [ right | left ]; reflexivity.
Qed.

Lemma capitalize_first_letter (c : ascii) (r : str) :
  Char.isalpha c = true -> capitalize_first (c :: r) = Char.upper c :: r.
Proof.
  intros Hc. unfold capitalize_first. rewrite slice_head, slice_tail.
  rewrite (isupper_single c Hc). cbn [is_empty negb andb].
  destruct (upper_of_letter c Hc) as [_ [_ [Hfix _]]].
  destruct (Char.isupper c) eqn:U; cbn [negb].
  - now rewrite (Hfix eq_refl).
  - reflexivity.
Qed.

Lemma add_period_cons (d : ascii) (r : str) :
  exists r', add_period (d :: r) = d :: r'.
Proof. unfold add_period. destruct (_ && _); cbn; eauto. Qed.

Lemma add_period_ends (answer : str) :
  answer <> [] -> ends_in_terminator (add_period answer) = true.
Proof.
  intros Hne. unfold add_period. fold (ends_in_terminator answer).
  destruct answer as [ | d r ]; [ contradiction | ].
  cbn [is_empty negb andb].
  destruct (ends_in_terminator (d :: r)) eqn:Hend; cbn [negb]; [ exact Hend | ].
  destruct (rev (d :: r)) as [ | x y ] eqn:R.
  - apply (f_equal (@rev ascii)) in R. rewrite rev_involutive in R.
    discriminate R.
  - change ("." : str) with ["."%char]. rewrite ends_in_terminator_last.
    reflexivity.
Qed.

(** The claim of C8 fails on an answer that starts with a digit: "3 PM"
    becomes "3 PM.", whose first character is not uppercase. *)
Lemma digit_answer_is_not_capitalized :
  ~ (ends_in_terminator (post_process_answer "3 PM" "When did John say hello?")
     = true
     /\ starts_upper (post_process_answer "3 PM" "When did John say hello?")
        = true).
Proof. vm_compute. intros [_ H]. discriminate H. Qed.

(** C8 (amended): for every non-empty answer text the finalized text ends
    in '.', '!' or '?'; when the answer starts with an ASCII letter (a to
    z, A to Z), the finalized text starts with that letter in upper case,
    an uppercase character. *)
Theorem finalized_answer_shape :
  forall answer question,
    answer <> [] ->
    ends_in_terminator (post_process_answer answer question) = true
    /\ (starts_with_ascii_letter answer = true ->
        starts_upper (post_process_answer answer question) = true
        /\ Py.slice (post_process_answer answer question) 0 1
           = Py.upper (Py.slice answer 0 1)).
Proof.
  intros answer question Hne.
  destruct answer as [ | c rest ]; [ contradiction | clear Hne ].
  unfold post_process_answer.
  split.
  - apply strip_keeps_terminator, add_period_ends.
    destruct (drop_last_fragment (c :: rest)) as [ | d r ] eqn:E.
    + now apply drop_last_fragment_not_nil in E.
    + destruct (capitalize_first_cons d r) as [-> | ->]; discriminate.
  - cbn [starts_with_ascii_letter]. intros Hc.
    destruct (upper_of_letter c Hc) as [Hup [Hsp [Hfix Hdot]]].
    destruct (drop_last_fragment_first c rest Hdot) as [r1 E1].
    rewrite E1, (capitalize_first_letter c r1 Hc).
    destruct (add_period_cons (Char.upper c) r1) as [r3 E3]. rewrite E3.
    destruct (strip_keeps_first (Char.upper c) r3 Hsp) as [r4 E4].
    rewrite E4. unfold starts_upper. rewrite !slice_head.
    split; [ now apply upper_single | reflexivity ].
Qed.

Lemma finalized_answer_shape_witness :
  ends_in_terminator (post_process_answer "john" "Who said hello?") = true
  /\ starts_upper (post_process_answer "john" "Who said hello?") = true
  /\ Py.slice (post_process_answer "john" "Who said hello?") 0 1
     = Py.upper (Py.slice ("john" : str) 0 1).
Proof.
  destruct (finalized_answer_shape "john" "Who said hello?") as [He Hs].
  - discriminate.
  - split; [ exact He | apply Hs; reflexivity ].
Defined.

(** ** Words, [split] and [join] *)

Lemma Forall_firstn {A : Type} (P : A -> Prop) (n : nat) (l : list A) :
  Forall P l -> Forall P (firstn n l).
Proof.
  intros H. revert n. induction H as [ | x l Hx Hl IH ]; intros [ | n ]; cbn;
    constructor; auto.
Qed.

Lemma Forall_skipn {A : Type} (P : A -> Prop) (n : nat) (l : list A) :
  Forall P l -> Forall P (skipn n l).
Proof.
  intros H. revert n. induction H as [ | x l Hx Hl IH ]; intros [ | n ]; cbn;
    auto.
Qed.

Lemma firstn_plus {A : Type} (n m : nat) (l : list A) :
  firstn (n + m) l = firstn n l ++ firstn m (skipn n l).
Proof.
  revert l. induction n as [ | n IH ]; intros l; [ reflexivity | ].
  destruct l as [ | x l ]; cbn.
  - now rewrite firstn_nil.
  - now rewrite IH.
Qed.

Lemma join_cons2 (sep x y : str) (l : list str) :
  Py.join sep (x :: y :: l) = x ++ sep ++ Py.join sep (y :: l).
Proof. reflexivity. Qed.

Lemma push_word_word (w : str) (ws : list str) :
  solid w -> Forall word ws -> Forall word (Py.push_word w ws).
Proof.
  intros Hw Hws. destruct w as [ | c w ]; cbn; [ exact Hws | ].
  constructor; [ split; [ discriminate | exact Hw ] | exact Hws ].
Qed.

Lemma split_run_words (s : str) :
  solid (fst (Py.split_run s)) /\ Forall word (snd (Py.split_run s)).
Proof.
  induction s as [ | c r [IHw IHws] ]; cbn.
  - split; constructor.
  - destruct (Py.split_run r) as [w ws]. cbn [fst snd] in *.
    destruct (Char.isspace c) eqn:E; cbn [fst snd].
    + split; [ constructor | now apply push_word_word ].
    + split; [ constructor; assumption | exact IHws ].
Qed.

(** [text.split()] gives words. *)
Lemma split_words (text : str) : Forall word (Py.split text).
Proof.
  unfold Py.split. destruct (split_run_words text) as [Hw Hws].
  destruct (Py.split_run text) as [w ws]. now apply push_word_word.
Qed.

Lemma split_run_solid (w s : str) :
  solid w ->
  Py.split_run (w ++ s)
  = (w ++ fst (Py.split_run s), snd (Py.split_run s)).
Proof.
  induction 1 as [ | c w Hc Hw IH ]; cbn [app].
  - now destruct (Py.split_run s).
  - cbn [Py.split_run]. rewrite IH, Hc. reflexivity.
Qed.

Lemma split_word_then_blank (w s : str) :
  word w -> Py.split (w ++ " " ++ s) = w :: Py.split s.
Proof.
  intros [Hne Hw]. unfold Py.split. rewrite split_run_solid by exact Hw.
  change (" " ++ s) with (" "%char :: s). cbn [Py.split_run].
  destruct (Py.split_run s) as [w' ws']. cbn [fst snd].
  change (Char.isspace " ") with true. cbv iota. cbn [fst snd].
  rewrite app_nil_r. destruct w; [ contradiction | reflexivity ].
Qed.

Lemma split_single_word (w : str) : word w -> Py.split w = [w].
Proof.
  intros [Hne Hw]. unfold Py.split.
  rewrite <- (app_nil_r w) at 1. rewrite split_run_solid by exact Hw.
  cbn. rewrite app_nil_r. destruct w; [ contradiction | reflexivity ].
Qed.

(** Joining words with one space and splitting again gives the words. *)
Lemma split_join (l : list str) :
  Forall word l -> Py.split (Py.join " " l) = l.
Proof.
  induction 1 as [ | w l Hw Hl IH ]; [ reflexivity | ].
  destruct l as [ | y l ].
  - now apply split_single_word.
  - rewrite join_cons2, split_word_then_blank by exact Hw. now rewrite IH.
Qed.

(** ** The last sentence terminator *)

Lemma rindex_range (p : ascii -> bool) (s : str) :
  -1 <= Py.rindex p s < len s.
Proof.
  induction s as [ | c r IH ]; [ cbn; lia | ].
  rewrite len_cons. cbn [Py.rindex].
  destruct (Z.leb_spec 0 (Py.rindex p r)); [ lia | ].
  pose proof (len_nonneg r). destruct (p c); lia.
Qed.

Lemma rindex_max (p q : ascii -> bool) (s : str) :
  Z.max (Py.rindex p s) (Py.rindex q s)
  = Py.rindex (fun c => p c || q c) s.
Proof.
  induction s as [ | c r IH ]; [ reflexivity | ].
  cbn [Py.rindex].
  pose proof (rindex_range p r) as Hp. pose proof (rindex_range q r) as Hq.
  destruct (Z.leb_spec 0 (Py.rindex p r));
    destruct (Z.leb_spec 0 (Py.rindex q r));
    destruct (Z.leb_spec 0 (Py.rindex (fun c => p c || q c) r));
    destruct (p c); destruct (q c); cbn [orb]; lia.
Qed.

Lemma sentence_end_of_rindex (s : str) :
  sentence_end_of s = Py.rindex is_terminator s.
Proof.
  unfold sentence_end_of, Py.rfind. now rewrite !rindex_max.
Qed.

Lemma rindex_app (p : ascii -> bool) (a b : str) :
  Py.rindex p (a ++ b)
  = if 0 <=? Py.rindex p b then len a + Py.rindex p b else Py.rindex p a.
Proof.
  induction a as [ | c a IH ]; cbn [app].
  - change (len (@nil ascii)) with 0.
    destruct (Z.leb_spec 0 (Py.rindex p b)); [ lia | ].
    pose proof (rindex_range p b). cbn. lia.
  - cbn [Py.rindex]. rewrite IH, len_cons.
    pose proof (rindex_range p a) as Ha. pose proof (len_nonneg a) as La.
    destruct (Z.leb_spec 0 (Py.rindex p b)).
    + destruct (Z.leb_spec 0 (len a + Py.rindex p b)); lia.
    + reflexivity.
Qed.

(** Cutting the joined words after the last terminator keeps whole words,
    when a terminator only ever closes a word. *)
Lemma cut_at_sentence_end (cw : list str) :
  Forall terminator_closes_word cw ->
  exists k : nat,
    (k <= List.length cw)%nat
    /\ firstn (Z.to_nat (Py.rindex is_terminator (Py.join " " cw) + 1))
              (Py.join " " cw)
       = Py.join " " (firstn k cw).
Proof.
  induction 1 as [ | w rest Hw Hrest IH ].
  - exists O. split; [ cbn; lia | reflexivity ].
  - unfold terminator_closes_word in Hw. rewrite sentence_end_of_rindex in Hw.
    destruct rest as [ | y rest ].
    + cbn [Py.join]. destruct Hw as [Hw | Hw]; rewrite Hw.
      * exists O. split; [ cbn; lia | reflexivity ].
      * exists 1%nat. split; [ cbn; lia | ].
        cbn [firstn Py.join]. apply firstn_all2. unfold len. lia.
    + rewrite join_cons2.
      set (J := Py.join " " (y :: rest)) in *.
      destruct IH as [k' [Hk' IH]].
      pose proof (rindex_range is_terminator J) as HJ.
      rewrite rindex_app.
      change (" " ++ J) with (" "%char :: J). cbn [Py.rindex].
      destruct (Z.leb_spec 0 (Py.rindex is_terminator J)) as [Hri | Hri].
      * destruct (Z.leb_spec 0 (Py.rindex is_terminator J + 1)); [ | lia ].
        destruct k' as [ | k' ].
        { exfalso. cbn [firstn Py.join] in IH.
          apply (f_equal (@List.length ascii)) in IH.
          rewrite length_firstn in IH. unfold len in HJ.
          change (@List.length ascii []) with O in IH. lia. }
        exists (S (S k')). split; [ cbn in *; lia | ].
        replace (Z.to_nat (len w + (Py.rindex is_terminator J + 1) + 1))
          with (List.length (w ++ [" "%char])
                + Z.to_nat (Py.rindex is_terminator J + 1))%nat
          by (rewrite length_app; unfold len;
              change (List.length [" "%char]) with 1%nat; lia).
        change (w ++ " "%char :: J) with (w ++ [" "%char] ++ J).
        rewrite app_assoc, firstn_app_2, IH.
        change (firstn (S (S k')) (w :: y :: rest))
          with (w :: firstn (S k') (y :: rest)).
        cbn [firstn]. rewrite join_cons2, <- app_assoc. reflexivity.
      * change (is_terminator " ") with false. cbv iota.
        change (0 <=? -1) with false. cbv iota.
        destruct Hw as [Hw | Hw]; rewrite Hw.
        -- exists O. split; [ cbn; lia | reflexivity ].
        -- exists 1%nat. split; [ cbn; lia | ].
           cbn [firstn Py.join].
           replace (Z.to_nat (len w - 1 + 1)) with (List.length w + 0)%nat
             by (unfold len; lia).
           rewrite firstn_app_2. cbn. now rewrite app_nil_r.
Qed.

(** ** Window segmenter: what one turn consumes *)

Lemma window_unfold (words : list str) (max_length start : Z) :
  window words max_length start
  = let end_ := Z.min (start + max_length) (len words) in
    let chunk_text := Py.join " " (Py.slice words start end_) in
    if end_ <? len words then
      if (Py.float_of_int (len chunk_text) * 0.7
          <? Py.float_of_int (sentence_end_of chunk_text))%float
      then
        (Py.slice chunk_text 0 (sentence_end_of chunk_text + 1),
         start
         + len (Py.split
                  (Py.slice chunk_text 0 (sentence_end_of chunk_text + 1))))
      else (chunk_text, end_)
    else (chunk_text, end_).
Proof. reflexivity. Qed.

Lemma window_words (words : list str) (max_length start : Z) :
  Forall word words ->
  Forall terminator_closes_word words ->
  0 <= start < len words ->
  1 <= max_length ->
  exists k : nat,
    snd (window words max_length start) = start + Z.of_nat k
    /\ start + Z.of_nat k <= len words
    /\ Py.split (fst (window words max_length start))
       = firstn k (skipn (Z.to_nat start) words).
Proof.
  intros Hwords Hclose Hstart Hmax.
  rewrite window_unfold. cbv zeta.
  set (end_ := Z.min (start + max_length) (len words)).
  assert (Hend : start < end_ <= len words) by (subst end_; lia).
  rewrite (slice_span words start end_) by lia.
  set (cw := firstn (Z.to_nat (end_ - start)) (skipn (Z.to_nat start) words)).
  assert (Hcw : Forall word cw)
    by (subst cw; now apply Forall_firstn, Forall_skipn).
  assert (Hcc : Forall terminator_closes_word cw)
    by (subst cw; now apply Forall_firstn, Forall_skipn).
  assert (Hlen : List.length cw = Z.to_nat (end_ - start)).
  { subst cw. rewrite length_firstn, length_skipn. unfold len in *. lia. }
  assert (Hplain :
            exists k : nat,
              end_ = start + Z.of_nat k
              /\ start + Z.of_nat k <= len words
              /\ Py.split (Py.join " " cw)
                 = firstn k (skipn (Z.to_nat start) words)).
  { exists (Z.to_nat (end_ - start)).
    split; [ lia | split; [ lia | ] ]. now rewrite split_join. }
  destruct (end_ <? len words); [ | exact Hplain ].
  destruct (_ <? _)%float; [ | exact Hplain ].
  cbn [fst snd]. rewrite sentence_end_of_rindex.
  pose proof (rindex_range is_terminator (Py.join " " cw)) as Hr.
  rewrite slice_prefix by lia.
  destruct (cut_at_sentence_end cw Hcc) as [k [Hk Hcut]].
  rewrite Hcut, split_join by now apply Forall_firstn.
  exists k. unfold len at 1. rewrite length_firstn.
  split; [ lia | split; [ lia | ] ].
  subst cw. rewrite firstn_firstn. f_equal. lia.
Qed.

(** ** Window segmenter: the windows cover the words *)

Lemma remove_overlaps_snoc (overlap : Z) (chunks : list str) (c : str) :
  chunks <> [] ->
  remove_overlaps overlap (chunks ++ [c])
  = remove_overlaps overlap chunks
    ++ Py.slice (Py.split c) overlap (len (Py.split c)).
Proof.
  destruct chunks as [ | first later ]; [ contradiction | intros _ ].
  cbn [app remove_overlaps]. rewrite flat_map_app. cbn [flat_map].
  now rewrite app_nil_r, app_assoc.
Qed.

Lemma chunk_loop_extends (fuel : nat) (words : list str)
  (max_length overlap start : Z) (chunks out : list str) :
  chunk_loop fuel words max_length overlap start chunks = Some out ->
  exists more, out = chunks ++ more.
Proof.
  revert start chunks. induction fuel as [ | fuel IH ]; intros start chunks;
    cbn [chunk_loop]; [ discriminate | ].
  destruct (start <? len words).
  - destruct (window words max_length start) as [chunk_text end_].
    destruct (len words <=? end_).
    + intros [= <-]. eauto.
    + intros H. apply IH in H. destruct H as [more ->].
      exists ([chunk_text] ++ more). now rewrite app_assoc.
  - intros [= <-]. exists []. now rewrite app_nil_r.
Qed.

Lemma chunk_loop_covers (words : list str) (max_length overlap : Z) :
  Forall word words ->
  Forall terminator_closes_word words ->
  1 <= max_length ->
  0 <= overlap ->
  forall fuel start chunks out,
    chunk_loop fuel words max_length overlap start chunks = Some out ->
    Forall (fun c => overlap <= len (Py.split c)) out ->
    covered words overlap start chunks ->
    remove_overlaps overlap out = words.
Proof.
  intros Hwords Hclose Hmax Hov.
  induction fuel as [ | fuel IH ]; intros start chunks out; cbn [chunk_loop];
    [ discriminate | ].
  intros Hrun Hout Hcov.
  assert (Hstart : 0 <= start < len words)
    by (destruct Hcov as [[_ [-> Hn]] | [_ [H0 [Hn _]]]]; lia).
  destruct (Z.ltb_spec start (len words)); [ | lia ].
  destruct (window_words words max_length start Hwords Hclose Hstart Hmax)
    as [k [Hend [Hbound Hsplit]]].
  destruct (window words max_length start) as [chunk_text end_].
  cbn [fst snd] in Hend, Hsplit. subst end_.
  assert (Hk : overlap <= Z.of_nat k).
  { assert (Hin : Forall (fun c => overlap <= len (Py.split c))
                    ((chunks ++ [chunk_text]))).
    { destruct (len words <=? start + Z.of_nat k).
      - injection Hrun as <-. exact Hout.
      - apply chunk_loop_extends in Hrun. destruct Hrun as [more ->].
        now apply Forall_app in Hout. }
    apply Forall_app in Hin. destruct Hin as [_ Hin].
    inversion Hin as [ | ? ? Hc _ ]; subst.
    rewrite Hsplit in Hc. unfold len in Hc. rewrite length_firstn in Hc.
    lia. }
  assert (Hnew : remove_overlaps overlap (chunks ++ [chunk_text])
                 = firstn (Z.to_nat (start + Z.of_nat k)) words).
  { destruct Hcov as [[-> [-> Hn]] | [Hne [H0 [Hn Hrem]]]].
    - cbn [app remove_overlaps flat_map]. rewrite app_nil_r, Hsplit.
      cbn [Z.to_nat skipn]. f_equal. lia.
    - rewrite remove_overlaps_snoc by exact Hne.
      rewrite Hrem, slice_suffix by lia. rewrite Hsplit.
      rewrite skipn_firstn_comm, skipn_skipn.
      replace (Z.to_nat (start + Z.of_nat k))
        with (Z.to_nat (start + overlap) + (k - Z.to_nat overlap))%nat
        by lia.
      rewrite firstn_plus. do 3 f_equal. lia. }
  destruct (Z.leb_spec (len words) (start + Z.of_nat k)) as [Hfin | Hmore].
  - injection Hrun as <-. rewrite Hnew.
    apply firstn_all2. unfold len in *. lia.
  - apply (IH _ _ _ Hrun Hout). right.
    split; [ now destruct chunks | ].
    split; [ lia | ]. split; [ lia | ].
    rewrite Hnew. f_equal. lia.
Qed.

(** The claim of C2 fails with no overlap on a text in which a terminator
    sits inside a word: the first window is cut after "much!" and the rest
    of that word, "ok", is in no window. *)
Lemma word_cut_by_sentence_trim :
  smart_chunking 2 "Thank you very much!ok a b" "What was said?" 5 0
  = Some (strs ["Thank you very much!"; "a b"])
  /\ remove_overlaps 0 (strs ["Thank you very much!"; "a b"])
     <> Py.split "Thank you very much!ok a b".
Proof.
  split; [ vm_compute; reflexivity | ].
  vm_compute. intros H. discriminate H.
Qed.

(** With the default sizes a first window cut back to fewer words than the
    overlap makes the next start negative; the slice it then takes is
    empty, and words 61 to 260 of the text are in no window. *)
Lemma words_lost_after_short_first_window :
  let text :=
    Py.join " "
      (repeat ("abcdefghijklmnopqrstuvwxyzabcd" : str) 59
       ++ [("abcdefghijklmnopqrstuvwxyzabc." : str)]
       ++ repeat ("b" : str) 300) in
  option_map (map (fun c => len (Py.split c)))
    (smart_chunking 4 text "What was said?" 350 75)
  = Some [60; 0; 100].
Proof. vm_compute. reflexivity. Qed.

(** X20: whenever the segmenter returns, for a window size of at least
    one word, an overlap that is not negative and a text in which a
    sentence terminator only ever closes a word, and every window returned
    has at least [overlap] words, the windows with the overlaps removed
    are the words of the text, in order, none dropped and none
    repeated. *)
Theorem windows_reconstruct_words :
  forall fuel text question max_length overlap chunks,
    1 <= max_length ->
    0 <= overlap ->
    Forall terminator_closes_word (Py.split text) ->
    smart_chunking fuel text question max_length overlap = Some chunks ->
    Forall (fun c => overlap <= len (Py.split c)) chunks ->
    remove_overlaps overlap chunks = Py.split text.
Proof.
  intros fuel text question max_length overlap chunks Hmax Hov Hclose.
  unfold smart_chunking.
  destruct (Z.leb_spec (len (Py.split text)) max_length) as [Hshort | Hlong].
  - intros [= <-] _. cbn. now rewrite app_nil_r.
  - cbv zeta. intros Hrun Hout.
    apply (chunk_loop_covers (Py.split text) max_length overlap
             (split_words text) Hclose Hmax Hov fuel 0 [] chunks Hrun Hout).
    left. split; [ reflexivity | split; [ reflexivity | lia ] ].
Qed.

Lemma windows_reconstruct_words_witness :
  remove_overlaps 2
    (strs ["We met on Monday. We agreed on the plan and the budget.";
           "the budget. Then we went home"])
  = Py.split
      "We met on Monday. We agreed on the plan and the budget. Then we went home".
Proof.
  apply (windows_reconstruct_words 3
           "We met on Monday. We agreed on the plan and the budget. Then we went home"
           "What was agreed?" 13 2).
  - lia.
  - lia.
  - vm_compute.
    repeat (apply Forall_cons;
            [ first [ left; reflexivity | right; reflexivity ] | ]).
    apply Forall_nil.
  - vm_compute. reflexivity.
  - vm_compute. repeat constructor; discriminate.
Defined.

Lemma short_opening_words :
  Py.split short_opening_transcript
  = repeat ("abcdefghijklmnopqrstuvwxyzabcd" : str) 59
    ++ [("abcdefghijklmnopqrstuvwxyzabc." : str)]
    ++ repeat ("b" : str) 300.
Proof. vm_compute. reflexivity. Qed.

(** C2: with the default sizes, 350 and 75, the windows do not
    reconstruct [short_opening_transcript], a text of 360 words whose
    only terminator closes its 60th word.  The segmenter returns three
    windows: the first is cut back to the first sentence, 60 words, fewer
    than the overlap; the next start is 60 - 75 = -15 and the slice taken
    from there is empty; the third window starts at word 261.  Words 61 to
    260 are in no window, and the windows with the overlaps removed hold
    85 of the 360 words. *)
Theorem windows_lose_words_at_default_sizes :
  forall question,
    let words := Py.split short_opening_transcript in
    len words = 360
    /\ Forall terminator_closes_word words
    /\ smart_chunking 3 short_opening_transcript question 350 75
       = Some [Py.join " " (firstn 60 words); [];
               Py.join " " (skipn 260 words)]
    /\ len (remove_overlaps 75
              [Py.join " " (firstn 60 words); [];
               Py.join " " (skipn 260 words)]) = 85
    /\ remove_overlaps 75
         [Py.join " " (firstn 60 words); []; Py.join " " (skipn 260 words)]
       <> words.
Proof.
  intros question words.
  assert (Hlen : len words = 360) by (vm_compute; reflexivity).
  assert (Hrem : len (remove_overlaps 75
                        [Py.join " " (firstn 60 words); [];
                         Py.join " " (skipn 260 words)]) = 85)
    by (vm_compute; reflexivity).
  split; [ exact Hlen | ].
  split.
  { subst words. rewrite short_opening_words.
    repeat rewrite Forall_app. repeat split.
    - apply Forall_forall. intros w Hw. apply repeat_spec in Hw. subst w.
      left. vm_compute. reflexivity.
    - constructor; [ right; vm_compute; reflexivity | constructor ].
    - apply Forall_forall. intros w Hw. apply repeat_spec in Hw. subst w.
      left. vm_compute. reflexivity. }
  split.
  { unfold smart_chunking. fold words.
    replace (len words <=? 350) with false by (now rewrite Hlen).
    cbv iota zeta. vm_compute. reflexivity. }
  split; [ exact Hrem | ].
  intros H. rewrite H, Hlen in Hrem. discriminate Hrem.
Qed.

(** ** The sentence trim needs a terminator *)

Lemma binary_round_aux_nonneg (mx ex : Z) (lx : location) :
  sf_nonneg (binary_round_aux prec emax false mx ex lx).
Proof.
  unfold binary_round_aux.
  destruct (shr_fexp prec emax mx ex lx) as [mrs' e'].
  destruct (shr_fexp prec emax _ e' loc_Exact) as [mrs'' e''].
  destruct (shr_m mrs''); cbn; auto.
  destruct (_ <=? _); cbn; auto.
Qed.

Lemma binary_normalize_nonneg (z : Z) :
  0 <= z -> sf_nonneg (binary_normalize prec emax z 0 false).
Proof.
  intros Hz. destruct z as [ | p | p ]; cbn; [ auto | | lia ].
  unfold binary_round. destruct (shl_align _ _ _) as [mz ez].
  apply binary_round_aux_nonneg.
Qed.

Lemma SFmul_nonneg (x : spec_float) (m : positive) (e : Z) :
  sf_nonneg x -> sf_nonneg (SFmul prec emax x (S754_finite false m e)).
Proof.
  destruct x as [ s | s | | s mx ex ]; cbn; auto.
  - destruct s; auto.
  - destruct s; [ contradiction | intros _ ].
    apply binary_round_aux_nonneg.
Qed.

Lemma SFltb_negative (x : spec_float) (m : positive) (e : Z) :
  sf_nonneg x -> SFltb x (S754_finite true m e) = false.
Proof.
  destruct x as [ s | s | | s mx ex ]; cbn; auto; destruct s; cbn; auto;
    contradiction.
Qed.

(** [len(chunk_text) * 0.7] is never below -1, the [sentence_end] of a
    chunk without terminator. *)
Lemma seventy_percent_not_below_minus_one (n : Z) :
  0 <= n ->
  (Py.float_of_int n * 0.7 <? Py.float_of_int (-1))%float = false.
Proof.
  intros Hn. unfold Py.float_of_int at 1.
  destruct (Z.ltb_spec n 0); [ lia | ].
  rewrite ltb_spec, FloatAxioms.mul_spec, of_uint63_spec.
  change (Prim2SF (Py.float_of_int (-1)))
    with (S754_finite true 4503599627370496 (-52)).
  change (Prim2SF 0.7) with (S754_finite false 6305039478318694 (-53)).
  apply SFltb_negative, SFmul_nonneg, binary_normalize_nonneg.
  apply Uint63.to_Z_bounded.
Qed.

(** ** Window segmenter: progress without overlap *)

Lemma split_of_solid_head (c : ascii) (r : str) :
  Char.isspace c = false -> 1 <= len (Py.split (c :: r)).
Proof.
  intros Hc. unfold Py.split. cbn [Py.split_run].
  destruct (Py.split_run r) as [w ws]. rewrite Hc. cbn [Py.push_word].
  rewrite len_cons. pose proof (len_nonneg ws). lia.
Qed.

Lemma join_of_words_head (w : str) (l : list str) :
  word w ->
  exists c r, Py.join " " (w :: l) = c :: r /\ Char.isspace c = false.
Proof.
  intros [Hne Hsolid]. destruct w as [ | c w ]; [ contradiction | ].
  inversion Hsolid as [ | ? ? Hc _ ]; subst.
  destruct l; cbn; eauto.
Qed.

(** Every turn of the loop consumes at least one word. *)
Lemma window_advances (words : list str) (max_length start : Z) :
  Forall word words ->
  0 <= start < len words ->
  1 <= max_length ->
  start + 1 <= snd (window words max_length start).
Proof.
  intros Hwords Hstart Hmax. rewrite window_unfold. cbv zeta.
  set (end_ := Z.min (start + max_length) (len words)).
  assert (Hend : start < end_ <= len words) by (subst end_; lia).
  destruct (end_ <? len words); [ | cbn; lia ].
  destruct (_ <? _)%float eqn:Hcond; [ | cbn; lia ].
  cbn [snd].
  set (ct := Py.join " " (Py.slice words start end_)) in *.
  assert (Hse : 0 <= sentence_end_of ct).
  { rewrite sentence_end_of_rindex in *.
    pose proof (rindex_range is_terminator ct) as Hr.
    destruct (Z.eq_dec (Py.rindex is_terminator ct) (-1)) as [E | E]; [ | lia ].
    rewrite E, seventy_percent_not_below_minus_one in Hcond
      by apply len_nonneg.
    discriminate Hcond. }
  assert (Hct : exists c r, ct = c :: r /\ Char.isspace c = false).
  { subst ct. rewrite (slice_span words start end_) by lia.
    destruct (skipn (Z.to_nat start) words) as [ | w l ] eqn:Hs.
    - apply (f_equal (@List.length str)) in Hs. rewrite length_skipn in Hs.
      unfold len in *. cbn in Hs. lia.
    - assert (Hw : word w).
      { assert (Hall : Forall word (w :: l))
          by (rewrite <- Hs; now apply Forall_skipn).
        now inversion Hall. }
      replace (Z.to_nat (end_ - start)) with (S (Z.to_nat (end_ - start - 1)))
        by lia.
      cbn [firstn]. now apply join_of_words_head. }
  destruct Hct as [c [r [Ect Hc]]]. rewrite Ect in *.
  rewrite slice_prefix by lia.
  replace (Z.to_nat (sentence_end_of (c :: r) + 1))
    with (S (Z.to_nat (sentence_end_of (c :: r)))) by lia.
  cbn [firstn]. pose proof (split_of_solid_head c
                              (firstn (Z.to_nat (sentence_end_of (c :: r))) r)
                              Hc).
  lia.
Qed.

Lemma chunk_loop_without_overlap (words : list str) (max_length : Z) :
  Forall word words ->
  1 <= max_length ->
  forall (m : nat) start chunks,
    0 <= start ->
    len words - start <= Z.of_nat m ->
    exists out,
      chunk_loop (S m) words max_length 0 start chunks = Some out
      /\ (start < len words -> out <> []).
Proof.
  intros Hwords Hmax.
  induction m as [ | m IH ]; intros start chunks H0 Hm.
  - cbn [chunk_loop]. destruct (Z.ltb_spec start (len words)); [ lia | ].
    exists chunks. split; [ reflexivity | lia ].
  - cbn [chunk_loop].
    destruct (Z.ltb_spec start (len words)) as [Hlt | Hge].
    + pose proof (window_advances words max_length start Hwords
                    (conj H0 Hlt) Hmax) as Hadv.
      destruct (window words max_length start) as [chunk_text end_].
      cbn [snd] in Hadv.
      destruct (Z.leb_spec (len words) end_) as [Hfin | Hmore].
      * exists (chunks ++ [chunk_text]). split; [ reflexivity | ].
        intros _. now destruct chunks.
      * rewrite Z.sub_0_r.
        destruct (IH end_ (chunks ++ [chunk_text])) as [out [Hrun Hne]];
          [ lia | lia | ].
        exists out. split; [ exact Hrun | ]. intros _. apply Hne. lia.
    + exists chunks. split; [ reflexivity | lia ].
Qed.

(** With overlap 0 the segmenter returns, with at least one window, on
    every text and for every window size of at least one word. *)
Lemma chunking_returns_without_overlap (text question : str)
  (max_length : Z) :
  1 <= max_length ->
  exists fuel chunks,
    smart_chunking fuel text question max_length 0 = Some chunks
    /\ chunks <> [].
Proof.
  intros Hmax. unfold smart_chunking.
  destruct (Z.leb_spec (len (Py.split text)) max_length) as [Hshort | Hlong].
  - exists O, [text]. split; [ reflexivity | discriminate ].
  - cbv zeta.
    destruct (chunk_loop_without_overlap (Py.split text) max_length
                (split_words text) Hmax
                (Z.to_nat (len (Py.split text))) 0 []) as [out [Hrun Hne]];
      [ lia | lia | ].
    exists (S (Z.to_nat (len (Py.split text)))), out.
    split; [ exact Hrun | apply Hne; lia ].
Qed.

(** With overlap 0, and terminators only at the end of words, the windows
    partition the words of the text. *)
Lemma windows_without_overlap_partition (text question : str)
  (max_length : Z) :
  1 <= max_length ->
  Forall terminator_closes_word (Py.split text) ->
  exists fuel chunks,
    smart_chunking fuel text question max_length 0 = Some chunks
    /\ remove_overlaps 0 chunks = Py.split text.
Proof.
  intros Hmax Hclose.
  destruct (chunking_returns_without_overlap text question max_length Hmax)
    as [fuel [chunks [Hrun _]]].
  exists fuel, chunks. split; [ exact Hrun | ].
  revert Hrun. unfold smart_chunking.
  destruct (Z.leb_spec (len (Py.split text)) max_length) as [Hshort | Hlong].
  - intros [= <-]. cbn. now rewrite app_nil_r.
  - cbv zeta. intros Hrun.
    apply (chunk_loop_covers (Py.split text) max_length 0
             (split_words text) Hclose Hmax (Z.le_refl 0) fuel 0 [] chunks
             Hrun).
    + apply Forall_forall. intros c _. apply len_nonneg.
    + left. split; [ reflexivity | split; [ reflexivity | lia ] ].
Qed.

(** ** The request: input validation *)

Lemma lstrip_head (s : str) (d : ascii) (r : str) :
  Py.lstrip s = d :: r -> Char.isspace d = false.
Proof.
  induction s as [ | c s IH ]; cbn; [ discriminate | ].
  destruct (Char.isspace c) eqn:E; [ exact IH | ].
  intros [= <- _]. exact E.
Qed.

Lemma strip_head (s : str) (d : ascii) (r : str) :
  Py.strip s = d :: r -> Char.isspace d = false.
Proof.
  unfold Py.strip. destruct (Py.lstrip s) as [ | e t ] eqn:L.
  - discriminate.
  - pose proof (lstrip_head s e t L) as He.
    destruct (rstrip_keeps_first e t He) as [t' E]. rewrite E.
    intros [= <- _]. exact He.
Qed.

Lemma upper_not_space (c : ascii) :
  Char.isspace c = false -> Char.isspace (Char.upper c) = false.
Proof.
  destruct c as [[] [] [] [] [] [] [] []]; cbn; intros H;
    try discriminate H; reflexivity.
Qed.

Lemma not_blank_head (c : ascii) (r : str) :
  Char.isspace c = false -> ~ blank (c :: r).
Proof.
  intros Hc. unfold blank. destruct (strip_keeps_first c r Hc) as [r' E].
  rewrite E. discriminate.
Qed.

Lemma capitalize_sentence_head (d : ascii) (r : str) :
  exists r', capitalize_sentence (d :: r) = Char.upper d :: r'.
Proof.
  unfold capitalize_sentence. rewrite slice_head, slice_tail.
  destruct (1 <? len (d :: r)); cbn; eauto.
Qed.

(** A normalized transcript is empty or starts with a character that is
    not a blank. *)
Lemma preprocess_text_blank (text : str) :
  blank (preprocess_text text) -> preprocess_text text = [].
Proof.
  unfold preprocess_text. destruct text as [ | c0 text ]; [ reflexivity | ].
  cbv zeta.
  generalize (Py.split_on "." (Re.sub_special (Re.sub_repeated
                (Re.sub_spaces (Py.strip (c0 :: text)))))).
  intros sentences. induction sentences as [ | sentence rest IH ];
    [ reflexivity | ].
  cbn [flat_map]. unfold process_sentence at 1 3. cbv zeta.
  destruct (Py.strip sentence) as [ | d r ] eqn:E; [ exact IH | ].
  cbn [app]. intros Hblank. exfalso.
  destruct (capitalize_sentence_head d r) as [r' Hcap]. rewrite Hcap in Hblank.
  destruct (join_head ". " (Char.upper d) r'
              (flat_map process_sentence rest)) as [j Hj].
  apply (not_blank_head (Char.upper d) j).
  - apply upper_not_space. exact (strip_head sentence d r E).
  - rewrite <- Hj. exact Hblank.
Qed.

Lemma question_mark_not_blank (s : str) :
  Py.endswith s "?" = true -> ~ blank s.
Proof.
  intros Hend Hblank. unfold blank in Hblank.
  destruct (rev s) as [ | c r ] eqn:R.
  - apply (f_equal (@rev ascii)) in R. rewrite rev_involutive in R. subst s.
    discriminate Hend.
  - apply (f_equal (@rev ascii)) in R. rewrite rev_involutive in R.
    cbn in R. subst s.
    change ("?" : str) with ["?"%char] in Hend.
    rewrite endswith_last in Hend. unfold Char.eqb in Hend.
    apply Ascii.eqb_eq in Hend. subst c.
    destruct (strip_keeps_last (rev r) "?" eq_refl) as [b E].
    rewrite E in Hblank. now destruct b.
Qed.

Lemma upper_first_keeps_question_mark (s : str) :
  s <> [] ->
  Py.endswith s "?" = true ->
  Py.endswith (Py.upper (Py.slice s 0 1) ++ Py.slice s 1 (len s)) "?" = true.
Proof.
  destruct s as [ | d r ]; [ contradiction | intros _ ].
  rewrite slice_head, slice_tail. cbn [Py.upper map app].
  destruct (rev r) as [ | x y ] eqn:R.
  - apply (f_equal (@rev ascii)) in R. rewrite rev_involutive in R. subst r.
    change ("?" : str) with ["?"%char].
    rewrite (endswith_last [] d), (endswith_last [] (Char.upper d)).
    unfold Char.eqb. intros H. apply Ascii.eqb_eq in H. now subst d.
  - apply (f_equal (@rev ascii)) in R. rewrite rev_involutive in R.
    cbn in R. subst r.
    change ("?" : str) with ["?"%char].
    rewrite (endswith_last (d :: rev y) x).
    rewrite (endswith_last (Char.upper d :: rev y) x). auto.
Qed.

(** A normalized question is empty or ends with a question mark. *)
Lemma preprocess_question_blank (question : str) :
  blank (preprocess_question question) -> preprocess_question question = [].
Proof.
  unfold preprocess_question.
  destruct question as [ | c0 question ]; [ reflexivity | ].
  set (q := Py.strip (c0 :: question)).
  set (q' := if negb (Py.endswith q "?") then q ++ "?" else q).
  assert (Hend : Py.endswith q' "?" = true).
  { subst q'. destruct (Py.endswith q "?") eqn:E; cbn [negb]; [ exact E | ].
    change ("?" : str) with ["?"%char]. rewrite endswith_last.
    reflexivity. }
  assert (Hne : q' <> []) by (intros E; rewrite E in Hend; discriminate Hend).
  destruct q' as [ | d r ] eqn:Q; [ contradiction | ].
  intros Hblank. exfalso. revert Hblank. apply question_mark_not_blank.
  apply upper_first_keeps_question_mark; assumption.
Qed.

(** The claim of C9 fails when the model does not load: an empty
    transcript gives the generic failure message. *)
Lemma empty_transcript_without_model :
  out (answer_question 1 failed_environment "" "Who said hello?" None)
  <> Returned input_error_result.
Proof. vm_compute. intros H. discriminate H. Qed.

(** C9 (amended): once the model has loaded, a request whose transcript or
    question is empty or blank after normalization returns the fixed
    InputError result (fixed message, confidence 0, empty excerpt), raises
    nothing and makes no pipeline call. *)
Theorem empty_input_is_input_error :
  forall fuel env pipeline transcript question max_answer_length,
    load_qa_model env = Some pipeline ->
    blank (preprocess_text transcript)
    \/ blank (preprocess_question question) ->
    answer_question fuel env transcript question max_answer_length
    = {| out := Returned input_error_result; pipeline_calls := [] |}.
Proof.
  intros fuel env pipeline transcript question mal Hload Hblank.
  unfold answer_question, answer_question_body. rewrite Hload.
  assert (E : is_empty (preprocess_text transcript)
              || is_empty (preprocess_question question) = true).
  { destruct Hblank as [H | H].
    - apply preprocess_text_blank in H. rewrite H. reflexivity.
    - apply preprocess_question_blank in H. rewrite H. apply orb_true_r. }
  rewrite E. reflexivity.
Qed.

(** An empty transcript and any question. *)
Lemma empty_input_is_input_error_witness :
  answer_question 1 (default_environment (stub "John" 0.9)) ""
    "Who said hello?" None
  = {| out := Returned input_error_result; pipeline_calls := [] |}.
Proof.
  apply (empty_input_is_input_error 1 (default_environment (stub "John" 0.9))
           (stub "John" 0.9) "" "Who said hello?" None).
  - reflexivity.
  - left. reflexivity.
Defined.

(** A question of blanks only is normalized to "?", which is not blank,
    and the request goes on to the pipeline. *)
Lemma blank_question_is_not_empty :
  preprocess_question "   " = "?"
  /\ pipeline_calls
       (answer_question 1 (default_environment (stub "John" 0.9))
          john_transcript "   " None)
     = [("?" : str, preprocess_text john_transcript)].
Proof. split; vm_compute; reflexivity. Qed.

(** * Further properties of the service *)

(** ** Window segmenter: size of the windows *)

Lemma slice_len_bound {A : Type} (l : list A) (lo hi : Z) :
  (0 <= lo -> 0 <= hi) ->
  len (Py.slice l lo hi) <= Z.max 0 (hi - lo).
Proof.
  intros H. unfold Py.slice, Py.clip.
  pose proof (len_nonneg l) as Hl.
  set (lo' := if lo <? 0 then Z.max 0 (lo + len l) else Z.min lo (len l)).
  set (hi' := if hi <? 0 then Z.max 0 (hi + len l) else Z.min hi (len l)).
  assert (Hb : hi' - lo' <= Z.max 0 (hi - lo)).
  { subst lo' hi'.
    destruct (Z.ltb_spec lo 0); destruct (Z.ltb_spec hi 0); lia. }
  unfold len at 1. rewrite length_firstn. lia.
Qed.

Lemma slice_Forall {A : Type} (P : A -> Prop) (l : list A) (lo hi : Z) :
  Forall P l -> Forall P (Py.slice l lo hi).
Proof. intros H. unfold Py.slice. now apply Forall_firstn, Forall_skipn. Qed.

(** A prefix of a text has no more words than the text. *)
Lemma split_run_prefix (k : nat) (s : str) :
  len (snd (Py.split_run (firstn k s))) <= len (snd (Py.split_run s))
  /\ len (Py.split (firstn k s)) <= len (Py.split s).
Proof.
  revert k. induction s as [ | c r IH ]; intros k.
  - rewrite firstn_nil. split; lia.
  - destruct k as [ | k ].
    + cbn [firstn]. unfold Py.split. cbn [Py.split_run Py.push_word snd].
      split; apply len_nonneg.
    + cbn [firstn]. specialize (IH k). unfold Py.split in *.
      cbn [Py.split_run].
      destruct (Py.split_run (firstn k r)) as [w1 ws1].
      destruct (Py.split_run r) as [w2 ws2]. cbn [snd] in IH.
      destruct (Char.isspace c); cbn [snd Py.push_word].
      * split; apply IH.
      * rewrite !len_cons. split; lia.
Qed.

Lemma window_size (words : list str) (max_length start : Z) :
  Forall word words ->
  0 <= max_length ->
  len (Py.split (fst (window words max_length start))) <= max_length.
Proof.
  intros Hwords Hmax. rewrite window_unfold. cbv zeta.
  set (end_ := Z.min (start + max_length) (len words)).
  set (cw := Py.slice words start end_).
  assert (Hcw : Forall word cw) by (subst cw; now apply slice_Forall).
  assert (Hlen : len cw <= max_length).
  { subst cw. pose proof (len_nonneg words).
    pose proof (slice_len_bound words start end_) as Hb.
    assert (0 <= start -> 0 <= end_) by (subst end_; lia).
    subst end_. lia. }
  assert (Hplain : len (Py.split (Py.join " " cw)) <= max_length)
    by now rewrite split_join.
  destruct (end_ <? len words); [ | exact Hplain ].
  destruct (_ <? _)%float; [ | exact Hplain ].
  cbn [fst]. rewrite sentence_end_of_rindex.
  pose proof (rindex_range is_terminator (Py.join " " cw)) as Hr.
  rewrite slice_prefix by lia.
  pose proof (split_run_prefix
                (Z.to_nat (Py.rindex is_terminator (Py.join " " cw) + 1))
                (Py.join " " cw)) as [_ Hp].
  lia.
Qed.

Lemma chunk_loop_sizes (words : list str) (max_length overlap : Z) :
  Forall word words ->
  0 <= max_length ->
  forall fuel start chunks out,
    Forall (fun c => len (Py.split c) <= max_length) chunks ->
    chunk_loop fuel words max_length overlap start chunks = Some out ->
    Forall (fun c => len (Py.split c) <= max_length) out.
Proof.
  intros Hwords Hmax.
  induction fuel as [ | fuel IH ]; intros start chunks out Hchunks;
    cbn [chunk_loop]; [ discriminate | ].
  destruct (start <? len words); [ | now intros [= <-] ].
  pose proof (window_size words max_length start Hwords Hmax) as Hw.
  destruct (window words max_length start) as [chunk_text end_].
  cbn [fst] in Hw.
  assert (Hnew : Forall (fun c => len (Py.split c) <= max_length)
                   (chunks ++ [chunk_text]))
    by (apply Forall_app; split; [ exact Hchunks | now constructor ]).
  destruct (len words <=? end_); [ now intros [= <-] | ].
  now apply IH.
Qed.

Lemma chunk_loop_not_nil (fuel : nat) (words : list str)
  (max_length overlap start : Z) (chunks out : list str) :
  start < len words ->
  chunk_loop fuel words max_length overlap start chunks = Some out ->
  out <> [].
Proof.
  intros Hlt. destruct fuel as [ | fuel ]; cbn [chunk_loop]; [ discriminate | ].
  destruct (Z.ltb_spec start (len words)); [ | lia ].
  destruct (window words max_length start) as [chunk_text end_].
  destruct (len words <=? end_).
  - intros [= <-]. now destruct chunks.
  - intros Hrun. apply chunk_loop_extends in Hrun. destruct Hrun as [more ->].
    now destruct chunks.
Qed.

(** X1: whenever the segmenter returns, for a window size that is not
    negative, it returns at least one window and no window has more than
    [max_length] words, whatever the overlap and also after a start that
    went below zero. *)
Theorem windows_fit_the_limit :
  forall fuel text question max_length overlap chunks,
    0 <= max_length ->
    smart_chunking fuel text question max_length overlap = Some chunks ->
    chunks <> []
    /\ Forall (fun c => len (Py.split c) <= max_length) chunks.
Proof.
  intros fuel text question max_length overlap chunks Hmax.
  unfold smart_chunking.
  destruct (Z.leb_spec (len (Py.split text)) max_length) as [Hshort | Hlong].
  - intros [= <-]. split; [ discriminate | ]. constructor; [ exact Hshort | ].
    constructor.
  - cbv zeta. intros Hrun. split.
    + eapply chunk_loop_not_nil; [ | exact Hrun ]. lia.
    + apply (chunk_loop_sizes (Py.split text) max_length overlap
               (split_words text) Hmax fuel 0 [] chunks (Forall_nil _) Hrun).
Qed.

(** Two windows of 11 and 6 words under a limit of 13. *)
Lemma windows_fit_the_limit_witness :
  strs ["We met on Monday. We agreed on the plan and the budget.";
        "the budget. Then we went home"] <> []
  /\ Forall (fun c => len (Py.split c) <= 13)
       (strs ["We met on Monday. We agreed on the plan and the budget.";
              "the budget. Then we went home"]).
Proof.
  apply (windows_fit_the_limit 3
           "We met on Monday. We agreed on the plan and the budget. Then we went home"
           "What was agreed?" 13 2).
  - lia.
  - vm_compute. reflexivity.
Defined.

(** X2: with overlap 0 and a window size of at least one word the
    segmenter returns on every text, with at least one window; every turn
    of its loop consumes at least one word. *)
Theorem segmenter_returns_without_overlap :
  forall text question max_length,
    1 <= max_length ->
    exists fuel chunks,
      smart_chunking fuel text question max_length 0 = Some chunks
      /\ chunks <> [].
Proof.
  intros text question max_length Hmax.
  exact (chunking_returns_without_overlap text question max_length Hmax).
Qed.

Lemma segmenter_returns_without_overlap_witness :
  exists fuel chunks,
    smart_chunking fuel "Thank you very much!ok a b" "What was said?" 5 0
    = Some chunks
    /\ chunks <> [].
Proof.
  apply (segmenter_returns_without_overlap "Thank you very much!ok a b"
           "What was said?" 5).
  lia.
Defined.

(** X3: with overlap 0, a window size of at least one word and a text in
    which terminators only close words, the segmenter returns and its
    windows, one after the other, hold exactly the words of the text. *)
Theorem windows_partition_without_overlap :
  forall text question max_length,
    1 <= max_length ->
    Forall terminator_closes_word (Py.split text) ->
    exists fuel chunks,
      smart_chunking fuel text question max_length 0 = Some chunks
      /\ flat_map Py.split chunks = Py.split text.
Proof.
  intros text question max_length Hmax Hclose.
  destruct (windows_without_overlap_partition text question max_length
              Hmax Hclose) as [fuel [chunks [Hrun Hrem]]].
  exists fuel, chunks. split; [ exact Hrun | ].
  rewrite <- Hrem. destruct chunks as [ | first later ]; [ reflexivity | ].
  cbn [flat_map remove_overlaps]. f_equal. clear Hrun Hrem.
  induction later as [ | c later IH ]; [ reflexivity | ].
  cbn [flat_map]. rewrite IH, slice_suffix by lia. reflexivity.
Qed.

Lemma windows_partition_without_overlap_witness :
  exists fuel chunks,
    smart_chunking fuel "We met on Monday. We agreed on the plan. Then we went home"
      "What was agreed?" 6 0 = Some chunks
    /\ flat_map Py.split chunks
       = Py.split "We met on Monday. We agreed on the plan. Then we went home".
Proof.
  apply (windows_partition_without_overlap
           "We met on Monday. We agreed on the plan. Then we went home"
           "What was agreed?" 6).
  - lia.
  - vm_compute.
    repeat (apply Forall_cons;
            [ first [ left; reflexivity | right; reflexivity ] | ]).
    apply Forall_nil.
Defined.

(** ** Answer aggregator: calls, candidates and ranking *)

Lemma collect_answers_calls (pipeline : pipeline_t) (question : str)
  (max_answer_length : Z) (chunks : list str) (i : Z) :
  snd (collect_answers pipeline question max_answer_length i chunks)
  = map (fun chunk => (question, chunk)) chunks.
Proof.
  revert i. induction chunks as [ | chunk rest IH ]; intros i;
    [ reflexivity | ].
  cbn [collect_answers map]. specialize (IH (i + 1)).
  destruct (collect_answers pipeline question max_answer_length (i + 1) rest)
    as [later calls].
  cbn [snd] in *. now rewrite IH.
Qed.

Lemma aggregate_split (pipeline : pipeline_t) (question : str)
  (max_answer_length : Z) (confidence_threshold : float) (chunks : list str) :
  aggregate pipeline question max_answer_length confidence_threshold chunks
  = {| out :=
         rank_and_gate question confidence_threshold
           (fst (collect_answers pipeline question max_answer_length 0
                   chunks));
       pipeline_calls := map (fun chunk => (question, chunk)) chunks |}.
Proof.
  unfold aggregate, rank_and_gate.
  rewrite <- (collect_answers_calls pipeline question max_answer_length
                chunks 0).
  destruct (collect_answers pipeline question max_answer_length 0 chunks)
    as [all_answers calls].
  cbn [fst snd]. destruct (is_empty all_answers); [ reflexivity | ].
  destruct (sort_by_confidence all_answers) as [ | best rest ];
    [ reflexivity | ].
  destruct (original_confidence best <? confidence_threshold)%float;
    reflexivity.
Qed.

(** The aggregator calls the pipeline once for each window, in the
    order of the windows and with the same question, whether calls raise or
    not and whatever they return. *)
Theorem one_pipeline_call_per_window :
  forall pipeline question max_answer_length confidence_threshold chunks,
    pipeline_calls
      (aggregate pipeline question max_answer_length confidence_threshold
         chunks)
    = map (fun chunk => (question, chunk)) chunks.
Proof.
  intros pipeline question mal thr chunks.
  now rewrite aggregate_split.
Qed.

Lemma chunk_answers_nothing (pipeline : pipeline_t) (question : str)
  (max_answer_length i : Z) (chunk : str) :
  no_usable_answer pipeline question max_answer_length chunk ->
  chunk_answers pipeline question max_answer_length i chunk = [].
Proof.
  unfold no_usable_answer, chunk_answers.
  destruct (pipeline question chunk max_answer_length) as [results | ];
    [ | reflexivity ].
  induction 1 as [ | [text score] results Hshort _ IH ]; [ reflexivity | ].
  cbn [flat_map fst] in *.
  destruct (Z.leb_spec 3 (len (Py.strip text))); [ lia | exact IH ].
Qed.

Lemma collect_answers_nothing (pipeline : pipeline_t) (question : str)
  (max_answer_length : Z) (chunks : list str) (i : Z) :
  Forall (no_usable_answer pipeline question max_answer_length) chunks ->
  fst (collect_answers pipeline question max_answer_length i chunks) = [].
Proof.
  intros H. revert i. induction H as [ | chunk rest Hc _ IH ]; intros i;
    [ reflexivity | ].
  cbn [collect_answers]. specialize (IH (i + 1)).
  destruct (collect_answers pipeline question max_answer_length (i + 1) rest)
    as [later calls].
  cbn [fst] in *. now rewrite chunk_answers_nothing, IH.
Qed.

(** X5: when for every window the pipeline call raises, or returns only
    answers of fewer than 3 characters once stripped, the aggregator ends
    with the fixed "couldn't find an answer" result (confidence 0, empty
    excerpt); the failures abort nothing. *)
Theorem failed_windows_give_no_answer :
  forall pipeline question max_answer_length confidence_threshold chunks,
    Forall (no_usable_answer pipeline question max_answer_length) chunks ->
    out (aggregate pipeline question max_answer_length confidence_threshold
           chunks)
    = Returned no_answer_result.
Proof.
  intros pipeline question mal thr chunks H.
  rewrite aggregate_split. cbn [out]. unfold rank_and_gate.
  now rewrite collect_answers_nothing.
Qed.

(** A pipeline that raises on every call, on two windows. *)
Lemma failed_windows_give_no_answer_witness :
  out (aggregate (fun _ _ _ => None) "Who said hello?" 200 0.05
         (strs ["John said hello"; "to Mary"]))
  = Returned no_answer_result.
Proof.
  apply (failed_windows_give_no_answer (fun _ _ _ => None) "Who said hello?"
           200 0.05 (strs ["John said hello"; "to Mary"])).
  repeat constructor.
Defined.

Lemma insert_desc_map (f : candidate -> candidate) (x : candidate)
  (l : list candidate) :
  (forall c, cand_confidence (f c) = cand_confidence c) ->
  insert_desc (f x) (map f l) = map f (insert_desc x l).
Proof.
  intros Hf. induction l as [ | y r IH ]; [ reflexivity | ].
  cbn [map insert_desc]. rewrite !Hf.
  destruct (cand_confidence x <? cand_confidence y)%float; cbn [map];
    [ now rewrite IH | reflexivity ].
Qed.

Lemma sort_by_confidence_map (f : candidate -> candidate)
  (l : list candidate) :
  (forall c, cand_confidence (f c) = cand_confidence c) ->
  sort_by_confidence (map f l) = map f (sort_by_confidence l).
Proof.
  intros Hf. induction l as [ | x l IH ]; [ reflexivity | ].
  cbn [map sort_by_confidence fold_right].
  fold (sort_by_confidence (map f l)). fold (sort_by_confidence l).
  now rewrite IH, insert_desc_map.
Qed.

Lemma rank_and_gate_forget_index (question : str)
  (confidence_threshold : float) (l : list candidate) :
  rank_and_gate question confidence_threshold (map forget_index l)
  = rank_and_gate question confidence_threshold l.
Proof.
  unfold rank_and_gate.
  rewrite sort_by_confidence_map by reflexivity.
  destruct l as [ | x l ]; [ reflexivity | ].
  cbn [map is_empty].
  destruct (sort_by_confidence (x :: l)) as [ | best rest ]; reflexivity.
Qed.

Lemma chunk_answers_forget_index (pipeline : pipeline_t) (question : str)
  (max_answer_length i j : Z) (chunk : str) :
  map forget_index
    (chunk_answers pipeline question max_answer_length i chunk)
  = map forget_index
      (chunk_answers pipeline question max_answer_length j chunk).
Proof.
  unfold chunk_answers.
  destruct (pipeline question chunk max_answer_length) as [results | ];
    [ | reflexivity ].
  induction results as [ | [text score] results IH ]; [ reflexivity | ].
  cbn [flat_map]. rewrite !map_app, IH. f_equal.
  destruct (3 <=? len (Py.strip text)); reflexivity.
Qed.

Lemma collect_answers_forget_index (pipeline : pipeline_t) (question : str)
  (max_answer_length : Z) (chunks : list str) (i j : Z) :
  map forget_index
    (fst (collect_answers pipeline question max_answer_length i chunks))
  = map forget_index
      (fst (collect_answers pipeline question max_answer_length j chunks)).
Proof.
  revert i j. induction chunks as [ | chunk rest IH ]; intros i j;
    [ reflexivity | ].
  cbn [collect_answers]. specialize (IH (i + 1) (j + 1)).
  destruct (collect_answers pipeline question max_answer_length (i + 1) rest)
    as [later1 calls1].
  destruct (collect_answers pipeline question max_answer_length (j + 1) rest)
    as [later2 calls2].
  cbn [fst] in *. rewrite !map_app, IH.
  now rewrite (chunk_answers_forget_index pipeline question max_answer_length
                 i j chunk).
Qed.

Lemma collect_answers_app (pipeline : pipeline_t) (question : str)
  (max_answer_length : Z) (a b : list str) (i : Z) :
  fst (collect_answers pipeline question max_answer_length i (a ++ b))
  = fst (collect_answers pipeline question max_answer_length i a)
    ++ fst (collect_answers pipeline question max_answer_length (i + len a) b).
Proof.
  revert i. induction a as [ | chunk a IH ]; intros i.
  - cbn. now rewrite Z.add_0_r.
  - cbn [app collect_answers]. specialize (IH (i + 1)).
    rewrite len_cons.
    replace (i + (len a + 1)) with (i + 1 + len a) by lia.
    destruct (collect_answers pipeline question max_answer_length (i + 1)
                (a ++ b)) as [l1 c1].
    destruct (collect_answers pipeline question max_answer_length (i + 1) a)
      as [l2 c2].
    cbn [fst] in *. now rewrite IH, app_assoc.
Qed.

(** X6: a window on which the pipeline gives nothing usable (the call
    raises, or every answer is too short) changes nothing in the outcome:
    the result is the one the aggregator gives without that window. *)
Theorem failed_window_is_skipped :
  forall pipeline question max_answer_length confidence_threshold
         before chunk after,
    no_usable_answer pipeline question max_answer_length chunk ->
    out (aggregate pipeline question max_answer_length confidence_threshold
           (before ++ chunk :: after))
    = out (aggregate pipeline question max_answer_length confidence_threshold
             (before ++ after)).
Proof.
  intros pipeline question mal thr before chunk after Hbad.
  rewrite !aggregate_split. cbn [out].
  rewrite <- (rank_and_gate_forget_index question thr
                (fst (collect_answers pipeline question mal 0
                        (before ++ chunk :: after)))).
  rewrite <- (rank_and_gate_forget_index question thr
                (fst (collect_answers pipeline question mal 0
                        (before ++ after)))).
  f_equal. rewrite !collect_answers_app, !map_app. f_equal.
  cbn [collect_answers].
  pose proof (collect_answers_forget_index pipeline question mal after
                (0 + len before + 1) (0 + len before)) as E.
  destruct (collect_answers pipeline question mal (0 + len before + 1) after)
    as [later calls].
  cbn [fst] in *.
  now rewrite chunk_answers_nothing by exact Hbad.
Qed.

(** The pipeline raises on the middle window only. *)
Lemma failed_window_is_skipped_witness :
  let pipeline : pipeline_t :=
    fun _ context _ =>
      if str_eqb context "to Mary" then None
      else Some [("John said hello." : str, 0.9%float)] in
  out (aggregate pipeline "Who said hello?" 200 0.05
         (strs ["John said hello."] ++ ("to Mary" : str) :: strs ["at 3 PM"]))
  = out (aggregate pipeline "Who said hello?" 200 0.05
           (strs ["John said hello."] ++ strs ["at 3 PM"])).
Proof.
  intros pipeline.
  apply (failed_window_is_skipped pipeline "Who said hello?" 200 0.05
           (strs ["John said hello."]) "to Mary" (strs ["at 3 PM"])).
  exact I.
Defined.

Lemma lstrip_fixed (c : ascii) (r : str) :
  Char.isspace c = false -> Py.lstrip (c :: r) = c :: r.
Proof. intros Hc. cbn. now rewrite Hc. Qed.

(** A text that neither starts nor ends with a blank is its own strip. *)
Lemma strip_fixed (s : str) (c x : ascii) (r y : str) :
  s = c :: r -> rev s = x :: y ->
  Char.isspace c = false -> Char.isspace x = false ->
  Py.strip s = s.
Proof.
  intros Hs Hr Hc Hx. unfold Py.strip, Py.rstrip.
  rewrite Hs, lstrip_fixed by exact Hc. rewrite <- Hs, Hr.
  rewrite lstrip_fixed by exact Hx. rewrite <- Hr. apply rev_involutive.
Qed.

Lemma strip_idempotent (s : str) : Py.strip (Py.strip s) = Py.strip s.
Proof.
  destruct (Py.strip s) as [ | d r ] eqn:E; [ reflexivity | ].
  pose proof (strip_head s d r E) as Hd.
  destruct (rev (d :: r)) as [ | x y ] eqn:R.
  - apply (f_equal (@rev ascii)) in R. rewrite rev_involutive in R.
    discriminate R.
  - apply (strip_fixed (d :: r) d x r y eq_refl R Hd).
    rewrite <- E in R. unfold Py.strip, Py.rstrip in R.
    rewrite rev_involutive in R. exact (lstrip_head _ x y R).
Qed.

Lemma chunk_answers_kept (pipeline : pipeline_t) (question : str)
  (max_answer_length i : Z) (chunk : str) :
  Forall (fun c =>
            3 <= len (cand_answer c)
            /\ Py.strip (cand_answer c) = cand_answer c
            /\ source_chunk c = chunk
            /\ chunk_index c = i)
         (chunk_answers pipeline question max_answer_length i chunk).
Proof.
  unfold chunk_answers.
  destruct (pipeline question chunk max_answer_length) as [results | ];
    [ | constructor ].
  induction results as [ | [text score] results IH ]; [ constructor | ].
  cbn [flat_map]. apply Forall_app. split; [ | exact IH ].
  destruct (Z.leb_spec 3 (len (Py.strip text))); [ | constructor ].
  constructor; [ | constructor ]. cbn.
  repeat split; [ assumption | apply strip_idempotent ].
Qed.

Lemma collect_answers_kept (pipeline : pipeline_t) (question : str)
  (max_answer_length : Z) (chunks : list str) (i : Z) :
  Forall (fun c =>
            3 <= len (cand_answer c)
            /\ Py.strip (cand_answer c) = cand_answer c
            /\ i <= chunk_index c
            /\ nth_error chunks (Z.to_nat (chunk_index c - i))
               = Some (source_chunk c))
         (fst (collect_answers pipeline question max_answer_length i chunks)).
Proof.
  revert i. induction chunks as [ | chunk rest IH ]; intros i;
    [ constructor | ].
  cbn [collect_answers]. specialize (IH (i + 1)).
  destruct (collect_answers pipeline question max_answer_length (i + 1) rest)
    as [later calls].
  cbn [fst] in *. apply Forall_app. split.
  - eapply Forall_impl;
      [ | apply (chunk_answers_kept pipeline question max_answer_length
                   i chunk) ].
    intros c [H3 [Hs [Hc Hi]]]. rewrite Hi, Hc, Z.sub_diag.
    repeat split; [ assumption | assumption | lia ].
  - eapply Forall_impl; [ | exact IH ].
    intros c [H3 [Hs [Hi Hn]]].
    repeat split; [ assumption | assumption | lia | ].
    replace (Z.to_nat (chunk_index c - i))
      with (S (Z.to_nat (chunk_index c - (i + 1)))) by lia.
    exact Hn.
Qed.

(** X7: every candidate the aggregator ranks has a stripped answer of at
    least 3 characters, and its source chunk is the window whose number it
    carries. *)
Theorem candidates_belong_to_their_window :
  forall pipeline question max_answer_length chunks,
    Forall (fun c =>
              3 <= len (cand_answer c)
              /\ Py.strip (cand_answer c) = cand_answer c
              /\ 0 <= chunk_index c
              /\ nth_error chunks (Z.to_nat (chunk_index c))
                 = Some (source_chunk c))
           (fst (collect_answers pipeline question max_answer_length 0
                   chunks)).
Proof.
  intros pipeline question mal chunks.
  eapply Forall_impl;
    [ | apply (collect_answers_kept pipeline question mal chunks 0) ].
  intros c [H3 [Hs [Hi Hn]]]. rewrite Z.sub_0_r in Hn. auto.
Qed.

Lemma insert_desc_Permutation (x : candidate) (l : list candidate) :
  Permutation (insert_desc x l) (x :: l).
Proof.
  induction l as [ | y r IH ]; [ reflexivity | ].
  cbn [insert_desc].
  destruct (cand_confidence x <? cand_confidence y)%float; [ | reflexivity ].
  rewrite IH. apply perm_swap.
Qed.

Lemma sort_Permutation (l : list candidate) :
  Permutation (sort_by_confidence l) l.
Proof.
  induction l as [ | x l IH ]; [ reflexivity | ].
  cbn [sort_by_confidence fold_right]. fold (sort_by_confidence l).
  rewrite insert_desc_Permutation. now constructor.
Qed.

(** What a request can return. *)
Lemma rank_and_gate_cases (question : str) (confidence_threshold : float)
  (l : list candidate) (r : result) :
  rank_and_gate question confidence_threshold l = Returned r ->
  r = no_answer_result \/ r = not_confident_result
  \/ exists best, In best l /\ r = finalize best question.
Proof.
  unfold rank_and_gate. destruct (is_empty l); [ intros [= <-]; auto | ].
  destruct (sort_by_confidence l) as [ | best rest ] eqn:Hs; [ discriminate | ].
  destruct (original_confidence best <? confidence_threshold)%float;
    intros [= <-]; [ auto | ].
  right. right. exists best. split; [ | reflexivity ].
  apply (Permutation_in best (sort_Permutation l)). rewrite Hs. now left.
Qed.

Lemma answer_question_cases (fuel : nat) (env : environment)
  (transcript question : str) (max_answer_length : option Z) (r : result) :
  out (answer_question fuel env transcript question max_answer_length)
  = Returned r ->
  r = input_error_result \/ r = failure_result \/ r = no_answer_result
  \/ r = not_confident_result
  \/ exists best,
      3 <= len (cand_answer best)
      /\ r = finalize best (preprocess_question question).
Proof.
  unfold answer_question, answer_question_body.
  destruct (load_qa_model env) as [pipeline | ];
    [ | cbn; intros [= <-]; auto ].
  destruct (is_empty _ || is_empty _); [ cbn; intros [= <-]; auto | ].
  destruct (smart_chunking _ _ _ _ _) as [chunks | ];
    [ | cbn; intros [= <-]; auto ].
  rewrite aggregate_split. cbn [out pipeline_calls].
  destruct (rank_and_gate _ _ _) as [r' | ] eqn:E; cbn [out];
    [ | intros [= <-]; auto ].
  intros [= <-]. apply rank_and_gate_cases in E.
  destruct E as [-> | [-> | [best [Hin ->]]]]; auto.
  do 4 right. exists best. split; [ | reflexivity ].
  pose proof (collect_answers_kept pipeline (preprocess_question question)
                match max_answer_length with
                | Some n => n
                | None => QA_MAX_ANSWER_LENGTH (app_config env)
                end chunks 0) as Hall.
  rewrite Forall_forall in Hall. now apply Hall in Hin.
Qed.

(** ** The request: what every result satisfies *)

Lemma fmin_cap (x : float) : (0.95 <? Py.fmin x 0.95)%float = false.
Proof.
  unfold Py.fmin. destruct (0.95 <? x)%float eqn:E; [ reflexivity | exact E ].
Qed.

(** X8: no result of a request reports a confidence above 0.95, whatever
    score the pipeline gave. *)
Theorem confidence_is_capped :
  forall fuel env transcript question max_answer_length r,
    out (answer_question fuel env transcript question max_answer_length)
    = Returned r ->
    (0.95 <? confidence r)%float = false.
Proof.
  intros fuel env transcript question mal r H.
  apply answer_question_cases in H.
  destruct H as [-> | [-> | [-> | [-> | [best [_ ->]]]]]];
    try reflexivity.
  apply fmin_cap.
Qed.

(** A pipeline score of 0.99 is reported as 0.95. *)
Lemma confidence_is_capped_witness :
  (0.95 <? 0.95)%float = false.
Proof.
  apply (confidence_is_capped 1 (default_environment (stub "John" 0.99))
           john_transcript "Who said hello?" None
           {| answer := "John.";
              confidence := 0.95;
              source_text :=
                "John said hello to Mary at 3 PM yesterday in the offic" |}).
  vm_compute. reflexivity.
Defined.

(** ** Answer finalizer: the source excerpt *)

Lemma lstrip_suffix (s : str) : exists a, s = a ++ Py.lstrip s.
Proof.
  induction s as [ | c r [a IH] ]; [ now exists [] | ].
  cbn. destruct (Char.isspace c).
  - exists (c :: a). cbn. now rewrite <- IH.
  - now exists [].
Qed.

Lemma lstrip_len (s : str) : len (Py.lstrip s) <= len s.
Proof.
  destruct (lstrip_suffix s) as [a E]. rewrite E at 2. rewrite len_app.
  pose proof (len_nonneg a). lia.
Qed.

Lemma len_rev {A : Type} (l : list A) : len (rev l) = len l.
Proof. unfold len. now rewrite length_rev. Qed.

Lemma strip_len (s : str) : len (Py.strip s) <= len s.
Proof.
  unfold Py.strip, Py.rstrip. rewrite len_rev.
  pose proof (lstrip_len (rev (Py.lstrip s))) as H1.
  rewrite len_rev in H1. pose proof (lstrip_len s). lia.
Qed.

Lemma strip_occurs (s : str) : occurs_in (Py.strip s) s.
Proof.
  unfold Py.strip, Py.rstrip.
  destruct (lstrip_suffix s) as [a Ea].
  destruct (lstrip_suffix (rev (Py.lstrip s))) as [b Eb].
  exists a, (rev b). rewrite Ea at 1. f_equal.
  rewrite <- rev_app_distr, <- Eb. now rewrite rev_involutive.
Qed.

Lemma slice_occurs {A : Type} (l : list A) (lo hi : Z) :
  exists before after, l = before ++ Py.slice l lo hi ++ after.
Proof.
  unfold Py.slice.
  exists (firstn (Z.to_nat (Py.clip l lo)) l),
         (skipn (Z.to_nat (Py.clip l hi - Py.clip l lo))
                (skipn (Z.to_nat (Py.clip l lo)) l)).
  now rewrite !firstn_skipn.
Qed.

Lemma find_from_range (sub s : str) (i : Z) :
  Py.find_from i s sub = -1 \/ i <= Py.find_from i s sub.
Proof.
  revert i. induction s as [ | c r IH ]; intros i; cbn [Py.find_from].
  - destruct (Py.startswith [] sub); [ right; lia | now left ].
  - destruct (Py.startswith (c :: r) sub); [ right; lia | ].
    destruct (IH (i + 1)) as [H | H]; [ now left | right; lia ].
Qed.

(** X9: the source excerpt of a finalized answer is a piece of the window
    the answer came from, without blanks at its ends and of at most the
    length of the answer plus 100 characters. *)
Theorem excerpt_is_bounded_piece_of_window :
  forall best_answer question,
    occurs_in (source_text (finalize best_answer question))
              (source_chunk best_answer)
    /\ Py.strip (source_text (finalize best_answer question))
       = source_text (finalize best_answer question)
    /\ len (source_text (finalize best_answer question))
       <= len (answer (finalize best_answer question)) + 100.
Proof.
  intros best question. unfold finalize. cbn [source_text answer].
  set (final := post_process_answer (cand_answer best) question).
  set (chunk := source_chunk best).
  set (lo := Z.max 0 (Py.find chunk final - 50)).
  set (hi := Z.min (len chunk) (Py.find chunk final + len final + 50)).
  split; [ | split ].
  - destruct (strip_occurs (Py.slice chunk lo hi)) as [a [b E]].
    destruct (slice_occurs chunk lo hi) as [c [d E']].
    exists (c ++ a), (b ++ d). rewrite E' at 1. rewrite E at 1.
    now rewrite <- !app_assoc.
  - apply strip_idempotent.
  - pose proof (strip_len (Py.slice chunk lo hi)) as H1.
    pose proof (slice_len_bound chunk lo hi) as H2.
    pose proof (len_nonneg chunk). pose proof (len_nonneg final).
    destruct (find_from_range final chunk 0) as [Hf | Hf];
      unfold Py.find in *; subst lo hi; lia.
Qed.

Lemma startswith_app (sub s : str) :
  Py.startswith s sub = true -> exists after, s = sub ++ after.
Proof.
  revert s. induction sub as [ | a sub IH ]; intros s; cbn.
  - intros _. now exists s.
  - destruct s as [ | b s ]; [ discriminate | ].
    intros H. apply andb_prop in H. destruct H as [Hab Hs].
    unfold Char.eqb in Hab. apply Ascii.eqb_eq in Hab. subst b.
    destruct (IH s Hs) as [after ->]. now exists after.
Qed.

Lemma find_from_found (sub s : str) (i : Z) :
  0 <= i ->
  i <= Py.find_from i s sub ->
  exists before after,
    s = before ++ sub ++ after
    /\ len before = Py.find_from i s sub - i.
Proof.
  revert i. induction s as [ | c r IH ]; intros i Hi; cbn [Py.find_from].
  - destruct (Py.startswith [] sub) eqn:E; [ | lia ]. intros _.
    apply startswith_app in E. destruct E as [after E].
    exists [], after. split; [ exact E | cbn; lia ].
  - destruct (Py.startswith (c :: r) sub) eqn:E.
    + intros _. apply startswith_app in E. destruct E as [after E].
      exists [], after. split; [ exact E | cbn; lia ].
    + intros H.
      destruct (find_from_range sub r (i + 1)) as [Hn | Hp]; [ lia | ].
      destruct (IH (i + 1) ltac:(lia) Hp) as [before [after [E' Hlen]]].
      exists (c :: before), after. split; [ cbn; now rewrite <- E' | ].
      rewrite len_cons. lia.
Qed.

Lemma lstrip_keeps_inner (a f b : str) (c : ascii) :
  Char.isspace c = false ->
  exists a', Py.lstrip (a ++ (c :: f) ++ b) = a' ++ (c :: f) ++ b.
Proof.
  intros Hc. induction a as [ | x a [a' IH] ].
  - exists []. cbn. now rewrite Hc.
  - cbn [app Py.lstrip]. destruct (Char.isspace x).
    + exists a'. exact IH.
    + now exists (x :: a).
Qed.

(** Stripping a text keeps a piece of it that neither starts nor ends
    with a blank. *)
Lemma strip_keeps_inner (a f b : str) (c x : ascii) (r y : str) :
  f = c :: r -> rev f = x :: y ->
  Char.isspace c = false -> Char.isspace x = false ->
  occurs_in f (Py.strip (a ++ f ++ b)).
Proof.
  intros Hf Hr Hc Hx. unfold Py.strip, Py.rstrip.
  rewrite Hf. destruct (lstrip_keeps_inner a r b c Hc) as [a' E].
  rewrite E. rewrite <- Hf.
  rewrite !rev_app_distr, Hr.
  replace ((rev b ++ x :: y) ++ rev a') with (rev b ++ (x :: y) ++ rev a')
    by now rewrite <- app_assoc.
  destruct (lstrip_keeps_inner (rev b) y (rev a') x Hx) as [b' E'].
  rewrite E'. exists a', (rev b').
  rewrite <- Hr, !rev_app_distr, !rev_involutive.
  now rewrite <- app_assoc.
Qed.

Lemma slice_keeps_inner (before f after : str) (lo hi : Z) :
  0 <= lo <= len before ->
  len before + len f <= hi <= len (before ++ f ++ after) ->
  exists a b, Py.slice (before ++ f ++ after) lo hi = a ++ f ++ b.
Proof.
  intros Hlo Hhi. pose proof (len_nonneg f) as Hf.
  rewrite slice_span by lia.
  exists (skipn (Z.to_nat lo) before),
         (firstn (Z.to_nat (hi - len before - len f)) after).
  rewrite skipn_app.
  replace (Z.to_nat lo - List.length before)%nat with O
    by (unfold len in *; lia).
  cbn [skipn]. rewrite firstn_app.
  rewrite (firstn_all2 (skipn (Z.to_nat lo) before))
    by (rewrite length_skipn; unfold len in *; lia).
  f_equal. rewrite firstn_app.
  rewrite (firstn_all2 f)
    by (rewrite length_skipn; unfold len in *; lia).
  f_equal. f_equal. rewrite length_skipn. unfold len in *. lia.
Qed.

Lemma post_process_answer_ends (answer question : str) :
  answer <> [] ->
  ends_in_terminator (post_process_answer answer question) = true.
Proof.
  intros Hne. unfold post_process_answer.
  destruct answer as [ | c rest ]; [ contradiction | ].
  apply strip_keeps_terminator, add_period_ends.
  destruct (drop_last_fragment (c :: rest)) as [ | d r ] eqn:E.
  - now apply drop_last_fragment_not_nil in E.
  - destruct (capitalize_first_cons d r) as [-> | ->]; discriminate.
Qed.

(** The ends of a finalized answer are not blanks. *)
Lemma post_process_answer_ends_solid (answer question : str) :
  answer <> [] ->
  exists c r x y,
    post_process_answer answer question = c :: r
    /\ rev (post_process_answer answer question) = x :: y
    /\ Char.isspace c = false /\ Char.isspace x = false.
Proof.
  intros Hne. pose proof (post_process_answer_ends answer question Hne) as He.
  assert (Hs : Py.strip (post_process_answer answer question)
               = post_process_answer answer question).
  { unfold post_process_answer. destruct answer; [ contradiction | ].
    apply strip_idempotent. }
  destruct (post_process_answer answer question) as [ | c r ] eqn:E;
    [ discriminate He | ].
  destruct (rev (c :: r)) as [ | x y ] eqn:R.
  - apply (f_equal (@rev ascii)) in R. rewrite rev_involutive in R.
    discriminate R.
  - exists c, r, x, y. repeat split.
    + exact (strip_head _ c r Hs).
    + apply (f_equal (@rev ascii)) in R. rewrite rev_involutive in R.
      cbn in R. rewrite R, ends_in_terminator_last in He.
      now apply terminator_not_space.
Qed.

(** X10: when the finalized answer occurs in its window, the source
    excerpt holds the answer. *)
Theorem excerpt_holds_a_found_answer :
  forall best_answer question,
    cand_answer best_answer <> [] ->
    0 <= Py.find (source_chunk best_answer)
                 (answer (finalize best_answer question)) ->
    occurs_in (answer (finalize best_answer question))
              (source_text (finalize best_answer question)).
Proof.
  intros best question Hne. unfold finalize. cbn [source_text answer].
  set (final := post_process_answer (cand_answer best) question).
  set (chunk := source_chunk best).
  intros Hfound. unfold Py.find in *.
  destruct (find_from_found final chunk 0 (Z.le_refl 0) Hfound)
    as [before [after [E Hlen]]].
  destruct (post_process_answer_ends_solid (cand_answer best) question Hne)
    as [c [r [x [y [Hf [Hr [Hc Hx]]]]]]].
  fold final in Hf, Hr.
  rewrite Z.sub_0_r in Hlen.
  pose proof (len_nonneg before). pose proof (len_nonneg after).
  pose proof (len_nonneg final).
  assert (Hchunk : len chunk = len before + len final + len after)
    by (rewrite E, !len_app; lia).
  destruct (slice_keeps_inner before final after
              (Z.max 0 (Py.find_from 0 chunk final - 50))
              (Z.min (len chunk)
                 (Py.find_from 0 chunk final + len final + 50)))
    as [a [b Es]].
  - lia.
  - rewrite <- E. lia.
  - rewrite <- E in Es. rewrite Es.
    exact (strip_keeps_inner a final b c x r y Hf Hr Hc Hx).
Qed.

(** The answer "Mary left", finalized as "Mary left.", in a window that
    holds "Mary left.". *)
Lemma excerpt_holds_a_found_answer_witness :
  let best :=
    {| cand_answer := "Mary left";
       cand_confidence := 0.9;
       original_confidence := 0.9;
       source_chunk := "John said hello. Mary left. Then John left too";
       chunk_index := 0 |} in
  occurs_in (answer (finalize best "Who left?"))
            (source_text (finalize best "Who left?")).
Proof.
  intros best.
  apply (excerpt_holds_a_found_answer best "Who left?").
  - discriminate.
  - vm_compute. discriminate.
Defined.

(** X11: the answer text of every result of a request ends in '.', '!'
    or '?': the four fixed messages do, and so does every finalized
    answer, whatever the pipeline returned. *)
Theorem every_answer_ends_a_sentence :
  forall fuel env transcript question max_answer_length r,
    out (answer_question fuel env transcript question max_answer_length)
    = Returned r ->
    ends_in_terminator (answer r) = true.
Proof.
  intros fuel env transcript question mal r H.
  apply answer_question_cases in H.
  destruct H as [-> | [-> | [-> | [-> | [best [Hlen ->]]]]]];
    try reflexivity.
  unfold finalize. cbn [answer]. apply post_process_answer_ends.
  intros E. rewrite E in Hlen. cbn in Hlen. lia.
Qed.

Lemma every_answer_ends_a_sentence_witness :
  ends_in_terminator "John." = true.
Proof.
  apply (every_answer_ends_a_sentence 1
           (default_environment (stub "John" 0.9))
           john_transcript "Who said hello?" None
           {| answer := "John.";
              confidence := 0.9;
              source_text :=
                "John said hello to Mary at 3 PM yesterday in the offic" |}).
  vm_compute. reflexivity.
Defined.

(** ** Question normalizer *)

Lemma upper_idempotent (c : ascii) : Char.upper (Char.upper c) = Char.upper c.
Proof. destruct c as [[] [] [] [] [] [] [] []]; reflexivity. Qed.

Lemma isupper_upper (c : ascii) :
  Py.isupper [Char.upper c] = false -> Char.upper c = c.
Proof.
  destruct c as [[] [] [] [] [] [] [] []]; cbn; intros H;
    try discriminate H; reflexivity.
Qed.

(** The shape of a normalized question: its first character is its own
    uppercase form and is not a blank, and it ends with '?'. *)
Lemma preprocess_question_shape (question : str) :
  question <> [] ->
  exists d r,
    preprocess_question question = Char.upper d :: r
    /\ Char.isspace (Char.upper d) = false
    /\ Py.endswith (Char.upper d :: r) "?" = true.
Proof.
  intros Hne. unfold preprocess_question.
  destruct question as [ | c0 question ]; [ contradiction | ].
  set (q := Py.strip (c0 :: question)).
  set (q' := if negb (Py.endswith q "?") then q ++ "?" else q).
  assert (Hend : Py.endswith q' "?" = true).
  { subst q'. destruct (Py.endswith q "?") eqn:E; cbn [negb]; [ exact E | ].
    change ("?" : str) with ["?"%char]. rewrite endswith_last.
    reflexivity. }
  assert (Hhead : exists d r, q' = d :: r /\ Char.isspace d = false).
  { subst q'. destruct q as [ | d r ] eqn:Q.
    - cbn. exists "?"%char, []. split; reflexivity.
    - pose proof (strip_head _ d r Q) as Hd.
      destruct (negb _); cbn; eauto. }
  destruct Hhead as [d [r [E Hd]]].
  pose proof (upper_first_keeps_question_mark q'
                ltac:(rewrite E; discriminate) Hend) as Hup.
  rewrite E in *. rewrite slice_head, slice_tail in *.
  exists d, r. repeat split; [ now apply upper_not_space | exact Hup ].
Qed.

Lemma endswith_rev_head (s : str) (x : ascii) :
  Py.endswith s [x] = true -> exists y, rev s = x :: y.
Proof.
  unfold Py.endswith. cbn. destruct (rev s) as [ | b y ]; [ discriminate | ].
  intros H. apply andb_prop in H. destruct H as [H _].
  unfold Char.eqb in H. apply Ascii.eqb_eq in H. subst b. eauto.
Qed.

(** X12: normalizing a question a second time changes nothing; a
    normalized question is empty only for the empty question, and
    otherwise ends with '?', so a question of blanks only becomes "?". *)
Theorem question_normalization_is_stable :
  forall question,
    preprocess_question (preprocess_question question)
    = preprocess_question question
    /\ (preprocess_question question = [] <-> question = [])
    /\ (question = []
        \/ Py.endswith (preprocess_question question) "?" = true).
Proof.
  intros question.
  destruct (list_eq_dec ascii_dec question []) as [-> | Q].
  { repeat split; auto. }
  destruct (preprocess_question_shape question Q) as [d [r [E [Hd Hend]]]].
  split; [ | split ].
  - rewrite E. unfold preprocess_question.
    change ("?" : str) with ["?"%char] in Hend.
    destruct (endswith_rev_head _ _ Hend) as [y Hr].
    rewrite (strip_fixed (Char.upper d :: r) (Char.upper d) "?" r y
               eq_refl Hr Hd eq_refl).
    change (["?"%char]) with ("?" : str) in Hend. rewrite Hend.
    cbn [negb]. rewrite slice_head, slice_tail. cbn [Py.upper map app].
    now rewrite upper_idempotent.
  - rewrite E. split; [ discriminate | intros H; contradiction ].
  - right. now rewrite E.
Qed.

(** ** Quality scorer: penalties without a bonus *)

(** X13: an answer that shares no word with the question and does not end
    in '.' or '!' gets the delta 0.0: without a bonus, the penalties for a
    short answer and for a hedging phrase are clamped away and never lower
    the adjusted score. *)
Theorem penalties_alone_change_nothing :
  forall answer question context,
    Py.intersection (Py.set (Re.findall_words (Py.lower question)))
                    (Py.set (Re.findall_words (Py.lower answer))) = [] ->
    Py.endswith answer "." || Py.endswith answer "!" = false ->
    calculate_answer_quality answer question context = 0%float.
Proof.
  intros answer question context Hov Hend.
  unfold calculate_answer_quality.
  destruct (is_empty answer || (len (Py.strip answer) <? 3));
    [ reflexivity | ].
  cbv zeta. rewrite Hov, Hend.
  change (0 <? len (@nil str)) with false. cbv iota.
  destruct (len answer <? 10); destruct (existsb _ generic_phrases);
    vm_compute; reflexivity.
Qed.

Lemma penalties_alone_change_nothing_witness :
  calculate_answer_quality "not sure" "Who said hello?" "" = 0%float.
Proof.
  apply (penalties_alone_change_nothing "not sure" "Who said hello?" "");
    vm_compute; reflexivity.
Defined.

(** ** Text normalizer: the shape of a normalized transcript *)

Lemma sub_spaces_Forall (P : ascii -> Prop) (s : str) :
  P " "%char -> Forall P s -> Forall P (Re.sub_spaces s).
Proof.
  intros Hsp. induction 1 as [ | c r Hc Hr IH ]; [ constructor | ].
  cbn [Re.sub_spaces]. destruct (Char.isspace c).
  - destruct r as [ | c' r' ]; [ repeat constructor; exact Hsp | ].
    destruct (Char.isspace c'); [ exact IH | now constructor ].
  - now constructor.
Qed.

Lemma sub_spaces_blanks (s : str) :
  Forall (fun c => Char.isspace c = true -> c = " "%char) (Re.sub_spaces s).
Proof.
  induction s as [ | c r IH ]; [ constructor | ].
  cbn [Re.sub_spaces]. destruct (Char.isspace c) eqn:E.
  - destruct r as [ | c' r' ]; [ repeat constructor | ].
    destruct (Char.isspace c'); [ exact IH | now constructor ].
  - constructor; [ congruence | exact IH ].
Qed.

Lemma group_try_prefix (l : nat) (s g : str) (n : nat) :
  Re.group_try l s = Some (g, n) -> exists k, g = firstn k s.
Proof.
  induction l as [ | l IH ]; cbn [Re.group_try]; [ discriminate | ].
  destruct (Re.backref_plus _ _ _); [ | exact IH ].
  intros H. injection H as Hg _. exists (S l). now rewrite <- Hg.
Qed.

Lemma sub_repeated_from_Forall (P : ascii -> Prop) (s : str) :
  Forall P s ->
  forall prev skip, Forall P (Re.sub_repeated_from prev skip s).
Proof.
  induction 1 as [ | c r Hc Hr IH ]; intros prev skip; [ constructor | ].
  cbn [Re.sub_repeated_from]. destruct skip as [ | k ]; [ | apply IH ].
  destruct (Re.match_repeated prev (c :: r)) as [[g n] | ] eqn:M.
  - apply Forall_app. split; [ | apply IH ].
    unfold Re.match_repeated in M.
    destruct (Re.boundary prev (c :: r)); [ | discriminate ].
    apply group_try_prefix in M. destruct M as [k ->].
    apply Forall_firstn. now constructor.
  - constructor; [ exact Hc | apply IH ].
Qed.

Lemma occurs_Forall (P : ascii -> Prop) (sub s : str) :
  occurs_in sub s -> Forall P s -> Forall P sub.
Proof.
  intros [a [b ->]] H. apply Forall_app in H. destruct H as [_ H].
  apply Forall_app in H. now destruct H.
Qed.

Lemma split_on_Forall (P : ascii -> Prop) (sep : ascii) (s : str) :
  Forall P s ->
  Forall (Forall (fun c => P c /\ Char.eqb c sep = false))
         (Py.split_on sep s).
Proof.
  induction 1 as [ | c r Hc Hr IH ]; [ repeat constructor | ].
  cbn [Py.split_on]. destruct (Char.eqb c sep) eqn:E.
  - constructor; [ constructor | exact IH ].
  - destruct (Py.split_on sep r) as [ | w ws ];
      [ repeat constructor; assumption | ].
    inversion IH as [ | ? ? Hw Hws ]; subst.
    constructor; [ constructor; [ split; assumption | exact Hw ] | exact Hws ].
Qed.

Lemma join_Forall (P : ascii -> Prop) (sep : str) (l : list str) :
  Forall P sep -> Forall (Forall P) l -> Forall P (Py.join sep l).
Proof.
  intros Hsep. induction 1 as [ | x l Hx Hl IH ]; [ constructor | ].
  destruct l as [ | y l ]; [ exact Hx | ].
  rewrite join_cons2. apply Forall_app. split; [ exact Hx | ].
  apply Forall_app. split; [ exact Hsep | exact IH ].
Qed.

Lemma join_rev_head (sep : str) (l : list str) :
  Forall tidy_sentence l ->
  l = [] \/ exists d r x0 y,
      Py.join sep l = d :: r /\ rev (Py.join sep l) = x0 :: y
      /\ Char.isspace d = false /\ Char.isspace x0 = false
      /\ Char.eqb "." x0 = false.
Proof.
  induction 1 as [ | x l Hx Hl IH ]; [ now left | right ].
  destruct Hx as [d [r [x0 [y [Ex [Er [Hd [Hx0 Hdot]]]]]]]].
  destruct l as [ | z l ].
  - exists d, r, x0, y. cbn [Py.join]. auto.
  - destruct IH as [IH | [d' [r' [x1 [y1 [_ [Er' [_ [Hx1 Hdot1]]]]]]]]];
      [ discriminate IH | ].
    rewrite join_cons2, Ex. exists d, (r ++ sep ++ Py.join sep (z :: l)).
    exists x1, (y1 ++ rev sep ++ rev (d :: r)).
    repeat split; auto.
    rewrite !rev_app_distr, Er'. cbn [app]. now rewrite <- app_assoc.
Qed.

Lemma upper_normal (c : ascii) :
  normal_char c -> Char.eqb c "." = false ->
  normal_char (Char.upper c) /\ Char.eqb "." (Char.upper c) = false
  /\ Char.eqb (Char.upper c) "." = false.
Proof.
  unfold normal_char.
  destruct c as [[] [] [] [] [] [] [] []]; cbn; intros [Ha Hs] Hd;
    try discriminate Ha; try discriminate Hd; repeat split; auto;
    discriminate.
Qed.

Lemma capitalize_sentence_cons (d : ascii) (r : str) :
  capitalize_sentence (d :: r) = Char.upper d :: r.
Proof.
  unfold capitalize_sentence. rewrite slice_head, slice_tail.
  destruct (Z.ltb_spec 1 (len (d :: r))); [ reflexivity | ].
  destruct r; [ reflexivity | ].
  rewrite !len_cons in *. pose proof (len_nonneg r). lia.
Qed.

Lemma eqb_sym_false (a b : ascii) :
  Char.eqb a b = false -> Char.eqb b a = false.
Proof. unfold Char.eqb. now rewrite Ascii.eqb_sym. Qed.

(** What [process_sentence] appends is tidy and made of normal
    characters, when the sentence is and holds no period. *)
Lemma process_sentence_tidy (sentence : str) :
  Forall (fun c => normal_char c /\ Char.eqb c "." = false) sentence ->
  Forall (fun x => tidy_sentence x /\ Forall normal_char x)
         (process_sentence sentence).
Proof.
  intros Hs. unfold process_sentence. cbv zeta.
  destruct (Py.strip sentence) as [ | d r ] eqn:E; [ constructor | ].
  constructor; [ | constructor ].
  pose proof (strip_head sentence d r E) as Hd.
  assert (Hin : Forall (fun c => normal_char c /\ Char.eqb c "." = false)
                  (d :: r)).
  { rewrite <- E. exact (occurs_Forall _ _ _ (strip_occurs sentence) Hs). }
  assert (Hlast : exists x0 y, rev (d :: r) = x0 :: y
                               /\ Char.isspace x0 = false).
  { destruct (rev (d :: r)) as [ | x0 y ] eqn:R.
    - apply (f_equal (@rev ascii)) in R. rewrite rev_involutive in R.
      discriminate R.
    - exists x0, y. split; [ reflexivity | ].
      rewrite <- E in R. unfold Py.strip, Py.rstrip in R.
      rewrite rev_involutive in R. exact (lstrip_head _ x0 y R). }
  destruct Hlast as [x0 [y [R Hx0]]].
  rewrite capitalize_sentence_cons.
  inversion Hin as [ | ? ? [Hnd Hdd] Hr ]; subst.
  destruct (upper_normal d Hnd Hdd) as [Hnu [Hud _]].
  split.
  - destruct r as [ | r0 r' ].
    + exists (Char.upper d), [], (Char.upper d), [].
      repeat split; auto; now apply upper_not_space.
    + assert (Hrev : exists y', rev (r0 :: r') = x0 :: y').
      { cbn [rev] in R. destruct (rev r' ++ [r0]) as [ | a b ] eqn:R'.
        - now destruct (rev r').
        - cbn in R. injection R as -> _. cbn [rev]. rewrite R'. eauto. }
      destruct Hrev as [y' R'].
      exists (Char.upper d), (r0 :: r'), x0, (y' ++ [Char.upper d]).
      repeat split; auto.
      * change (rev (Char.upper d :: r0 :: r'))
          with (rev (r0 :: r') ++ [Char.upper d]).
        now rewrite R'.
      * now apply upper_not_space.
      * assert (Hx : In x0 (r0 :: r')).
        { apply in_rev. rewrite R'. now left. }
        rewrite Forall_forall in Hr. destruct (Hr x0 Hx) as [_ Hdot].
        now apply eqb_sym_false.
  - constructor; [ exact Hnu | ].
    eapply Forall_impl; [ | exact Hr ]. now intros c [Hc _].
Qed.

Lemma flat_map_Forall {A B : Type} (P : A -> Prop) (Q : B -> Prop)
  (f : A -> list B) (l : list A) :
  (forall a, P a -> Forall Q (f a)) -> Forall P l -> Forall Q (flat_map f l).
Proof.
  intros Hf. induction 1 as [ | a l Ha Hl IH ]; [ constructor | ].
  cbn [flat_map]. apply Forall_app. split; [ now apply Hf | exact IH ].
Qed.

Lemma allowed_filter (s : str) :
  Forall (fun c => Re.allowed c = true) (Re.sub_special s).
Proof.
  unfold Re.sub_special. apply Forall_forall. intros c Hc.
  now apply filter_In in Hc.
Qed.

Lemma filter_Forall {A : Type} (P : A -> Prop) (f : A -> bool) (l : list A) :
  Forall P l -> Forall P (filter f l).
Proof.
  intros H. apply Forall_forall. intros c Hc. apply filter_In in Hc.
  rewrite Forall_forall in H. now apply H.
Qed.

(** The sentences the normalizer joins. *)
Lemma processed_sentences_tidy (text : str) :
  Forall (fun x => tidy_sentence x /\ Forall normal_char x)
    (flat_map process_sentence
       (Py.split_on "."
          (Re.sub_special (Re.sub_repeated (Re.sub_spaces (Py.strip text)))))).
Proof.
  apply (flat_map_Forall
           (Forall (fun c => normal_char c /\ Char.eqb c "." = false))).
  { exact process_sentence_tidy. }
  apply split_on_Forall. unfold normal_char.
  apply Forall_forall. intros c Hc. split.
  - pose proof (allowed_filter
                  (Re.sub_repeated (Re.sub_spaces (Py.strip text)))) as H.
    rewrite Forall_forall in H. now apply H.
  - assert (H : Forall (fun c => Char.isspace c = true -> c = " "%char)
                  (Re.sub_special
                     (Re.sub_repeated (Re.sub_spaces (Py.strip text))))).
    { apply filter_Forall. apply sub_repeated_from_Forall.
      apply sub_spaces_blanks. }
    rewrite Forall_forall in H. now apply H.
Qed.

Lemma allowed_isascii (c : ascii) :
  Re.allowed c = true -> Char.isascii c = true.
Proof.
  destruct c as [[] [] [] [] [] [] [] []]; vm_compute;
    first [ reflexivity | intros H; exact H ].
Qed.

(** X14: a normalized transcript has no blank at either end and does not
    end with a period (the period that closes the text is dropped).  For
    a transcript of ASCII characters it is ASCII text again and holds only
    characters of the allow-list (the word characters a-z, A-Z, 0-9 and
    _, blanks and [. , ! ? ; : ( ) -]), the space being its only
    blank. *)
Theorem normalized_transcript_shape :
  forall text,
    Py.strip (preprocess_text text) = preprocess_text text
    /\ Py.endswith (preprocess_text text) "." = false
    /\ (Py.isascii text = true ->
        Py.isascii (preprocess_text text) = true
        /\ Forall normal_char (preprocess_text text)).
Proof.
  intros text.
  assert (Hnormal : Forall normal_char (preprocess_text text)).
  { unfold preprocess_text.
    destruct text as [ | c0 text ]; [ constructor | ].
    cbv zeta. pose proof (processed_sentences_tidy (c0 :: text)) as H.
    apply join_Forall.
    - repeat constructor; unfold normal_char; cbn; auto; discriminate.
    - eapply Forall_impl; [ | exact H ]. now intros x [_ Hx]. }
  split; [ | split ].
  - unfold preprocess_text.
    destruct text as [ | c0 text ]; [ reflexivity | ].
    cbv zeta. pose proof (processed_sentences_tidy (c0 :: text)) as H.
    set (L := flat_map process_sentence _) in *.
    assert (Ht : Forall tidy_sentence L)
      by (eapply Forall_impl; [ | exact H ]; now intros x [Hx _]).
    destruct (join_rev_head ". " L Ht)
      as [-> | [d [r [x0 [y [E [R [Hd [Hx0 _]]]]]]]]]; [ reflexivity | ].
    exact (strip_fixed _ d x0 r y E R Hd Hx0).
  - unfold preprocess_text.
    destruct text as [ | c0 text ]; [ reflexivity | ].
    cbv zeta. pose proof (processed_sentences_tidy (c0 :: text)) as H.
    set (L := flat_map process_sentence _) in *.
    assert (Ht : Forall tidy_sentence L)
      by (eapply Forall_impl; [ | exact H ]; now intros x [Hx _]).
    destruct (join_rev_head ". " L Ht)
      as [-> | [d [r [x0 [y [E [R [_ [_ Hdot]]]]]]]]]; [ reflexivity | ].
    unfold Py.endswith. rewrite R.
    change (rev ("." : str)) with ["."%char]. cbn [Py.startswith].
    now rewrite Hdot.
  - intros _. split; [ | exact Hnormal ].
    unfold Py.isascii. apply forallb_forall. intros c Hc.
    rewrite Forall_forall in Hnormal.
    destruct (Hnormal c Hc) as [Ha _]. now apply allowed_isascii.
Qed.

(** A transcript with runs of blanks and characters outside the
    allow-list. *)
Lemma normalized_transcript_shape_witness :
  let text : str := " so  we met @ 9 #today.   it went  well.  " in
  Py.isascii (preprocess_text text) = true
  /\ Forall normal_char (preprocess_text text).
Proof.
  intros text.
  destruct (normalized_transcript_shape text) as [_ [_ H]].
  apply H. vm_compute. reflexivity.
Defined.

(** X15: a transcript of blanks only is normalized to the empty text, and
    the request, once the model has loaded, answers it with the InputError
    result and calls no pipeline. *)
Theorem blank_transcript_is_rejected :
  forall fuel env pipeline transcript question max_answer_length,
    load_qa_model env = Some pipeline ->
    blank transcript ->
    preprocess_text transcript = []
    /\ answer_question fuel env transcript question max_answer_length
       = {| out := Returned input_error_result; pipeline_calls := [] |}.
Proof.
  intros fuel env pipeline transcript question mal Hload Hblank.
  assert (E : preprocess_text transcript = []).
  { unfold preprocess_text. destruct transcript; [ reflexivity | ].
    unfold blank in Hblank. rewrite Hblank. reflexivity. }
  split; [ exact E | ].
  unfold answer_question, answer_question_body. rewrite Hload, E.
  reflexivity.
Qed.

Lemma blank_transcript_is_rejected_witness :
  preprocess_text "   " = []
  /\ answer_question 1 (default_environment (stub "John" 0.9)) "   "
       "Who said hello?" None
     = {| out := Returned input_error_result; pipeline_calls := [] |}.
Proof.
  apply (blank_transcript_is_rejected 1
           (default_environment (stub "John" 0.9)) (stub "John" 0.9)
           "   " "Who said hello?" None).
  - reflexivity.
  - reflexivity.
Defined.

(** ** Loading the model *)

(** X16: once [_load_qa_model] has returned, every later call returns the
    same model, tokenizer and pipeline, changes no global and makes no
    library call: the result does not depend on what loading would do
    now. *)
Theorem model_is_loaded_once :
  forall (M T : Type) (h h' : hub M T) (g g' : qa_globals M T) loaded,
    _load_qa_model h g = (g', Some loaded) ->
    _load_qa_model h' g' = (g', Some loaded).
Proof.
  intros M T h h' g g' loaded. unfold _load_qa_model.
  destruct (_qa_model g) as [m | ] eqn:Em;
    [ destruct (_qa_tokenizer g) as [t | ] eqn:Et | ].
  - intros [= <- <-]. now rewrite Em, Et.
  - destruct (tokenizer_from_pretrained h) as [t | ]; [ | discriminate ].
    destruct (model_from_pretrained h) as [m' | ]; [ | discriminate ].
    destruct (make_pipeline h m' t) as [p | ]; [ | discriminate ].
    destruct (model_eval h m'); [ | discriminate ].
    intros [= <- <-]. reflexivity.
  - destruct (tokenizer_from_pretrained h) as [t | ]; [ | discriminate ].
    destruct (model_from_pretrained h) as [m' | ]; [ | discriminate ].
    destruct (make_pipeline h m' t) as [p | ]; [ | discriminate ].
    destruct (model_eval h m'); [ | discriminate ].
    intros [= <- <-]. reflexivity.
Qed.

(** A first load with every library call succeeding, then a call while
    the library calls would all raise. *)
Lemma model_is_loaded_once_witness :
  let good : hub unit unit :=
    {| tokenizer_from_pretrained := Some tt;
       model_from_pretrained := Some tt;
       make_pipeline := fun _ _ => Some (stub "John" 0.9);
       model_eval := fun _ => true |} in
  let bad : hub unit unit :=
    {| tokenizer_from_pretrained := None;
       model_from_pretrained := None;
       make_pipeline := fun _ _ => None;
       model_eval := fun _ => false |} in
  _load_qa_model bad (fst (_load_qa_model good fresh_globals))
  = _load_qa_model good fresh_globals.
Proof.
  intros good bad.
  apply (model_is_loaded_once unit unit good bad fresh_globals).
  reflexivity.
Defined.

(** X17: when, starting from globals with no model and no pipeline, the
    tokenizer and the model load but building the pipeline raises, the
    call raises with the model and the tokenizer already stored; every
    later call then returns without loading anything and gives [None] as
    the pipeline.  A later request whose inputs are not empty therefore
    never gets an answer: when the segmentation returns, it ends with the
    fixed "couldn't find an answer" result after one failed call per
    window, and when the segmentation exhausts memory, with the failure
    result. *)
Theorem failed_pipeline_is_never_rebuilt :
  forall (M T : Type) (h h' : hub M T) (g : qa_globals M T) model tokenizer,
    _qa_model g = None ->
    _qa_pipeline g = None ->
    tokenizer_from_pretrained h = Some tokenizer ->
    model_from_pretrained h = Some model ->
    make_pipeline h model tokenizer = None ->
    let g' := fst (_load_qa_model h g) in
    snd (_load_qa_model h g) = None
    /\ _load_qa_model h' g' = (g', Some (Some model, Some tokenizer, None))
    /\ (forall fuel cfg transcript question max_answer_length,
          preprocess_text transcript <> [] ->
          question <> [] ->
          answer_question_with fuel cfg h' g' transcript question
            max_answer_length
          = (g',
             match smart_chunking fuel (preprocess_text transcript)
                     (preprocess_question question) (QA_CHUNK_SIZE cfg)
                     (QA_CHUNK_OVERLAP cfg) with
             | Some chunks =>
                 {| out := Returned no_answer_result;
                    pipeline_calls :=
                      map (fun chunk => (preprocess_question question, chunk))
                          chunks |}
             | None =>
                 {| out := Returned failure_result; pipeline_calls := [] |}
             end)).
Proof.
  intros M T h h' g model tokenizer Hm Hnone Ht Hmod Hp g'.
  assert (E : _load_qa_model h g
              = ({| _qa_model := Some model;
                    _qa_tokenizer := Some tokenizer;
                    _qa_pipeline := None |}, None)).
  { unfold _load_qa_model. rewrite Hm, Ht, Hmod. cbn. now rewrite Hp, Hnone. }
  subst g'. rewrite E. cbn [fst snd].
  split; [ reflexivity | ]. split; [ reflexivity | ].
  intros fuel cfg transcript question mal Htext Hq.
  unfold answer_question_with. cbn [_load_qa_model _qa_model _qa_tokenizer].
  unfold _load_qa_model. cbn [_qa_model _qa_tokenizer _qa_pipeline].
  cbn [call_pipeline]. f_equal.
  unfold answer_question, answer_question_body.
  cbn [load_qa_model app_config].
  assert (Hin : is_empty (preprocess_text transcript)
                || is_empty (preprocess_question question) = false).
  { destruct (preprocess_text transcript); [ contradiction | ].
    destruct (preprocess_question_shape question Hq) as [d [r [-> _]]].
    reflexivity. }
  rewrite Hin.
  destruct (smart_chunking _ _ _ _ _) as [chunks | ]; [ | reflexivity ].
  rewrite aggregate_split. cbn [out pipeline_calls].
  unfold rank_and_gate.
  rewrite collect_answers_nothing; [ reflexivity | ].
  apply Forall_forall. intros chunk _. exact I.
Qed.

(** The pipeline fails to build once; a later request on the John
    transcript finds no answer, and one on [long_opening_transcript]
    ends with the failure result. *)
Lemma failed_pipeline_is_never_rebuilt_witness :
  let once : hub unit unit :=
    {| tokenizer_from_pretrained := Some tt;
       model_from_pretrained := Some tt;
       make_pipeline := fun _ _ => None;
       model_eval := fun _ => true |} in
  let good : hub unit unit :=
    {| tokenizer_from_pretrained := Some tt;
       model_from_pretrained := Some tt;
       make_pipeline := fun _ _ => Some (stub "John" 0.9);
       model_eval := fun _ => true |} in
  snd (answer_question_with 1 default_config good
         (fst (_load_qa_model once fresh_globals))
         john_transcript "Who said hello?" None)
  = {| out := Returned no_answer_result;
       pipeline_calls :=
         [("Who said hello?" : str, preprocess_text john_transcript)] |}
  /\ forall fuel,
      snd (answer_question_with fuel default_config good
             (fst (_load_qa_model once fresh_globals))
             long_opening_transcript "What is discussed?" None)
      = {| out := Returned failure_result; pipeline_calls := [] |}.
Proof.
  intros once good.
  destruct (failed_pipeline_is_never_rebuilt unit unit once good
              fresh_globals tt tt eq_refl eq_refl eq_refl eq_refl eq_refl)
    as [_ [_ H]].
  split.
  - rewrite (H 1%nat default_config john_transcript "Who said hello?" None).
    + vm_compute. reflexivity.
    + vm_compute. discriminate.
    + discriminate.
  - intros fuel.
    rewrite (H fuel default_config long_opening_transcript
               "What is discussed?" None).
    + cbn [snd QA_CHUNK_SIZE QA_CHUNK_OVERLAP default_config].
      now rewrite default_chunking_repeats.
    + assert (E : is_empty (preprocess_text long_opening_transcript) = false)
        by (vm_compute; reflexivity).
      intros K. rewrite K in E. discriminate E.
    + discriminate.
Defined.

(** X18: a load that fails at the tokenizer or at the model raises and is
    tried again by the next call: with library calls that then succeed,
    that call returns the new model, tokenizer and pipeline. *)
Theorem failed_download_is_retried :
  forall (M T : Type) (h h' : hub M T) (g : qa_globals M T)
         model tokenizer pipeline,
    _qa_model g = None ->
    tokenizer_from_pretrained h = None \/ model_from_pretrained h = None ->
    tokenizer_from_pretrained h' = Some tokenizer ->
    model_from_pretrained h' = Some model ->
    make_pipeline h' model tokenizer = Some pipeline ->
    model_eval h' model = true ->
    snd (_load_qa_model h g) = None
    /\ snd (_load_qa_model h' (fst (_load_qa_model h g)))
       = Some (Some model, Some tokenizer, Some pipeline).
Proof.
  intros M T h h' g model tokenizer pipeline Hm Hfail Ht Hmod Hp He.
  assert (E : snd (_load_qa_model h g) = None
              /\ _qa_model (fst (_load_qa_model h g)) = None).
  { unfold _load_qa_model. rewrite Hm.
    destruct (tokenizer_from_pretrained h) as [t | ] eqn:Et.
    - destruct Hfail as [H | H]; [ discriminate H | ]. rewrite H.
      split; reflexivity.
    - split; [ reflexivity | exact Hm ]. }
  destruct E as [E1 E2]. split; [ exact E1 | ].
  unfold _load_qa_model at 1. rewrite E2, Ht, Hmod. cbn. now rewrite Hp, He.
Qed.

(** The model fails to download once. *)
Lemma failed_download_is_retried_witness :
  let offline : hub unit unit :=
    {| tokenizer_from_pretrained := Some tt;
       model_from_pretrained := None;
       make_pipeline := fun _ _ => None;
       model_eval := fun _ => true |} in
  let good : hub unit unit :=
    {| tokenizer_from_pretrained := Some tt;
       model_from_pretrained := Some tt;
       make_pipeline := fun _ _ => Some (stub "John" 0.9);
       model_eval := fun _ => true |} in
  snd (_load_qa_model offline fresh_globals) = None
  /\ snd (_load_qa_model good (fst (_load_qa_model offline fresh_globals)))
     = Some (Some tt, Some tt, Some (stub "John" 0.9)).
Proof.
  intros offline good.
  apply (failed_download_is_retried unit unit offline good fresh_globals
           tt tt (stub "John" 0.9)); try reflexivity.
  right. reflexivity.
Defined.

(** ** Ranking the candidates *)

Lemma SFltb_key (x y : spec_float) :
  x <> S754_nan -> y <> S754_nan ->
  (SFltb x y = true <-> key_lt (sf_key x) (sf_key y)).
Proof.
  intros Hx Hy. unfold SFltb, SFcompare, key_lt.
  destruct x as [ s1 | s1 | | s1 m1 e1 ]; destruct y as [ s2 | s2 | | s2 m2 e2 ];
    try contradiction; try destruct s1; try destruct s2; cbn [sf_key fst snd];
    try (split; [ discriminate | lia ]);
    try (split; [ intros _; lia | reflexivity ]);
    change (Pos.compare_cont Eq m1 m2) with (Pos.compare m1 m2);
    destruct (Z.compare_spec e1 e2);
    try destruct (Pos.compare_spec m1 m2);
    cbn [CompOpp]; split; intros; try discriminate; try reflexivity; lia.
Qed.

Lemma not_nan_spec (x : float) : not_nan x -> Prim2SF x <> S754_nan.
Proof.
  unfold not_nan. rewrite eqb_spec. intros H E. rewrite E in H.
  discriminate H.
Qed.

Lemma ltb_true_not_nan (a b : float) :
  (a <? b)%float = true ->
  Prim2SF a <> S754_nan /\ Prim2SF b <> S754_nan.
Proof.
  rewrite ltb_spec. unfold SFltb, SFcompare.
  destruct (Prim2SF a); destruct (Prim2SF b); intros H;
    try discriminate H; split; discriminate.
Qed.

Lemma ltb_irreflexive (a : float) : (a <? a)%float = false.
Proof.
  destruct (a <? a)%float eqn:E; [ | reflexivity ].
  destruct (ltb_true_not_nan a a E) as [Ha _].
  rewrite ltb_spec in E. apply (SFltb_key _ _ Ha Ha) in E.
  unfold key_lt in E. lia.
Qed.

Lemma ltb_asymmetric (a b : float) :
  (a <? b)%float = true -> (b <? a)%float = false.
Proof.
  intros H. destruct (ltb_true_not_nan a b H) as [Ha Hb].
  destruct (b <? a)%float eqn:E; [ | reflexivity ].
  rewrite ltb_spec in H, E.
  apply (SFltb_key _ _ Ha Hb) in H. apply (SFltb_key _ _ Hb Ha) in E.
  unfold key_lt in *. lia.
Qed.

Lemma not_ltb_transitive (a b c : float) :
  not_nan a -> not_nan b -> not_nan c ->
  (a <? b)%float = false -> (b <? c)%float = false ->
  (a <? c)%float = false.
Proof.
  intros Ha Hb Hc Hab Hbc.
  apply not_nan_spec in Ha, Hb, Hc.
  destruct (a <? c)%float eqn:E; [ | reflexivity ].
  rewrite ltb_spec in *.
  apply (SFltb_key _ _ Ha Hc) in E.
  assert (Nab : ~ key_lt (sf_key (Prim2SF a)) (sf_key (Prim2SF b)))
    by (intros K; apply (SFltb_key _ _ Ha Hb) in K; congruence).
  assert (Nbc : ~ key_lt (sf_key (Prim2SF b)) (sf_key (Prim2SF c)))
    by (intros K; apply (SFltb_key _ _ Hb Hc) in K; congruence).
  unfold key_lt in *. lia.
Qed.

(** The first of the sorted candidates comes before every candidate of
    equal or higher adjusted score in the order of discovery. *)
Lemma sort_head_is_first (l : list candidate) (best : candidate)
  (rest : list candidate) :
  sort_by_confidence l = best :: rest ->
  exists earlier later,
    l = earlier ++ best :: later
    /\ Forall (fun c => (cand_confidence c <? cand_confidence best)%float
                        = true) earlier.
Proof.
  revert best rest. induction l as [ | x l IH ]; intros best rest;
    [ discriminate | ].
  cbn [sort_by_confidence fold_right]. fold (sort_by_confidence l).
  destruct (sort_by_confidence l) as [ | b r ] eqn:Hs.
  - apply sort_by_confidence_nil in Hs. subst l. cbn.
    intros [= <- _]. exists [], []. split; [ reflexivity | constructor ].
  - cbn [insert_desc].
    destruct (cand_confidence x <? cand_confidence b)%float eqn:E.
    + intros [= <- _].
      destruct (IH b r eq_refl) as [earlier [later [-> Hall]]].
      exists (x :: earlier), later.
      split; [ reflexivity | now constructor ].
    + intros [= <- _]. exists [], l. split; [ reflexivity | constructor ].
Qed.

Lemma sort_head_is_highest (l : list candidate) (best : candidate)
  (rest : list candidate) :
  Forall (fun c => not_nan (cand_confidence c)) l ->
  sort_by_confidence l = best :: rest ->
  Forall (fun c => (cand_confidence best <? cand_confidence c)%float = false)
         l.
Proof.
  intros Hnan. revert best rest.
  induction Hnan as [ | x l Hx Hl IH ]; intros best rest; [ discriminate | ].
  cbn [sort_by_confidence fold_right]. fold (sort_by_confidence l).
  destruct (sort_by_confidence l) as [ | b r ] eqn:Hs.
  - apply sort_by_confidence_nil in Hs. subst l. cbn.
    intros [= <- _]. constructor; [ apply ltb_irreflexive | constructor ].
  - specialize (IH b r eq_refl). cbn [insert_desc].
    assert (Hb : not_nan (cand_confidence b)).
    { assert (Hin : In b l).
      { apply (Permutation_in b (sort_Permutation l)). rewrite Hs.
        now left. }
      rewrite Forall_forall in Hl. now apply Hl. }
    destruct (cand_confidence x <? cand_confidence b)%float eqn:E.
    + intros [= <- _]. constructor; [ now apply ltb_asymmetric | exact IH ].
    + intros [= <- _]. constructor; [ apply ltb_irreflexive | ].
      rewrite Forall_forall in *. intros c Hc.
      apply (not_ltb_transitive _ (cand_confidence b) _ Hx Hb);
        [ now apply Hl | exact E | now apply IH ].
Qed.

(** X19: when no adjusted score is NaN, the candidate the aggregator
    selects has the highest adjusted score (no candidate has a strictly
    higher one), and among the candidates that reach it, it is the first
    in the order of discovery (first window first, pipeline order within
    a window): every candidate found before it has a strictly lower
    adjusted score. *)
Theorem selected_candidate_is_first_of_the_best :
  forall l best rest,
    Forall (fun c => not_nan (cand_confidence c)) l ->
    sort_by_confidence l = best :: rest ->
    Forall (fun c => (cand_confidence best <? cand_confidence c)%float = false)
           l
    /\ exists earlier later,
        l = earlier ++ best :: later
        /\ Forall (fun c => (cand_confidence c <? cand_confidence best)%float
                            = true) earlier.
Proof.
  intros l best rest Hnan Hs. split.
  - exact (sort_head_is_highest l best rest Hnan Hs).
  - exact (sort_head_is_first l best rest Hs).
Qed.

(** Three candidates with adjusted scores 0.5, 0.9 and 0.9: the second is
    selected, ahead of the third. *)
Lemma selected_candidate_is_first_of_the_best_witness :
  let cand (a : str) (x : float) (i : Z) : candidate :=
    {| cand_answer := a; cand_confidence := x; original_confidence := x;
       source_chunk := a; chunk_index := i |} in
  let l := [cand "low" 0.5%float 0; cand "first" 0.9%float 1;
            cand "second" 0.9%float 2] in
  let best := cand "first" 0.9%float 1 in
  Forall (fun c => (cand_confidence best <? cand_confidence c)%float = false) l
  /\ exists earlier later,
      l = earlier ++ best :: later
      /\ Forall (fun c => (cand_confidence c <? cand_confidence best)%float
                          = true) earlier.
Proof.
  intros cand l best.
  apply (selected_candidate_is_first_of_the_best l best
           [cand "second" 0.9%float 2; cand "low" 0.5%float 0]).
  - repeat constructor.
  - reflexivity.
Defined.

(** * The request and the exceptions it catches *)





